(** * snek: the simulation core of a browser Snake game

    A shallow embedding of [game-controller.ts] and of the [Snake] /
    [SnakeSegment] classes that the same source file carries, followed by
    the properties of the tick, of growth, of reset, of the food-eaten
    handler and of the draw-position smoothing.

    Segments are JavaScript objects that point at each other
    ([nextSegment]) and are shared between the [snakeSegments] array and
    the [snakeHeadSegment] field, so the model keeps an explicit store of
    segment objects addressed by allocation order.  Numbers that hold
    cell coordinates are integers ([Z]); numbers on the drawing side are
    [JsNumber]s: either [NaN] or an exact rational (rounding, overflow
    and the infinities are not modelled, so nothing below speaks of the
    exact value a frame computes in doubles).

    The source file carries the controller and the [Snake] class in
    revisions whose names do not agree: the controller calls
    [new Snake(this, drawCtx)], [player.reset()], [player.setPrey()] and
    subscribes to [player.deathEvent] and [player.atePreyEvent], while
    the [Snake] class has [constructor(drawCtx, gameControl)],
    [resetForStart()], [deathSubject], no food, and calls
    [gameControl.onFoodEaten()] where the controller has [onPreyEaten].
    The model reads [reset] as [resetForStart], [deathEvent] as the
    stream of [deathSubject] and [onFoodEaten] as [onPreyEaten]; each
    definition that does so says it. *)

From Stdlib Require Import ZArith QArith Qcanon Lia.
From stdpp Require Import base numbers list option.

(** Addresses of segment objects in the store. *)
Abbreviation addr := nat.

(* ===================================================================== *)
(** ** JavaScript numbers on the drawing side

    [NaN] or a finite number, kept exact: a sum or product is the exact
    rational, where the source rounds to a double and may overflow to an
    infinity. *)

Module JsNumber.

Inductive t : Type :=
| NaN : t
| Num : Qc → t.

Definition ofZ (n : Z) : t := Num (Qc_of_Z n).

(** The global [isNaN]. *)
Definition isNaN (n : t) : bool :=
  match n with NaN => true | Num _ => false end.

Definition add (a b : t) : t :=
  match a, b with Num p, Num q => Num (p + q)%Qc | _, _ => NaN end.

Definition sub (a b : t) : t :=
  match a, b with Num p, Num q => Num (p - q)%Qc | _, _ => NaN end.

Definition mul (a b : t) : t :=
  match a, b with Num p, Num q => Num (p * q)%Qc | _, _ => NaN end.

(** [Math.min] of two arguments: [NaN] if either is. *)
Definition min (a b : t) : t :=
  match a, b with
  | Num p, Num q => Num (if decide (p ≤ q)%Qc then p else q)
  | _, _ => NaN
  end.

End JsNumber.

(* ===================================================================== *)
(** ** Vector2 and MyMath (utils) *)

Module Vector2.

(** Modelled from the spec: the [Vector2] class of [utils/utils], which
    is not in the source file.  A cell coordinate is an integer pair
    with value equality; [add] is component-wise and gives a new vector,
    [zero] is a new origin vector at each use, [set] copies coordinates.
    The coordinate type is a parameter because the same class carries
    integer cells and interpolated draw positions. *)
Record t (A : Type) : Type := mk { x : A; y : A }.
Global Arguments mk {A} _ _.
Global Arguments x {A} _.
Global Arguments y {A} _.

Definition zero : t Z := mk 0%Z 0%Z.

Definition add (a b : t Z) : t Z := mk (x a + x b)%Z (y a + y b)%Z.

Definition equals (a b : t Z) : bool := (x a =? x b)%Z && (y a =? y b)%Z.

(** The value a cell has when it is stored as a draw position. *)
Definition toDraw (c : t Z) : t JsNumber.t :=
  mk (JsNumber.ofZ (x c)) (JsNumber.ofZ (y c)).

Global Instance eq_dec : EqDecision (t Z).
Proof. solve_decision. Defined.

End Vector2.

Module MyMath.

(** Modelled from the spec: [MyMath.lerp] of [utils/utils], which is not
    in the source file; "linear interpolation" from [a] toward [b] by
    the factor [f]. *)
Definition lerp (a b f : JsNumber.t) : JsNumber.t :=
  JsNumber.add a (JsNumber.mul (JsNumber.sub b a) f).

End MyMath.

(* ===================================================================== *)
(** ** Board *)

Module Board.

(** Modelled from the spec: the [Board] class of [board/board], which is
    not in the source file.  A square grid of [numCellsWide] cells per
    side; [cellIsInsideBoard] is true iff [0 ≤ x < N] and [0 ≤ y < N];
    [getCenterCell] is [(floor(N/2), floor(N/2))]; the unoccupied cells
    are all cells minus the segments' target cells minus the active
    food cell. *)
Record t : Type := mk { numCellsWide : Z }.

Definition cellIsInsideBoard (b : t) (c : Vector2.t Z) : bool :=
  (0 <=? Vector2.x c)%Z && (Vector2.x c <? numCellsWide b)%Z &&
  (0 <=? Vector2.y c)%Z && (Vector2.y c <? numCellsWide b)%Z.

Definition getCenterCell (b : t) : Vector2.t Z :=
  Vector2.mk (numCellsWide b / 2)%Z (numCellsWide b / 2)%Z.

Definition allCells (b : t) : list (Vector2.t Z) :=
  let n := Z.to_nat (numCellsWide b) in
  cx ← seq 0 n; ((λ cy, Vector2.mk (Z.of_nat cx) (Z.of_nat cy)) <$> seq 0 n).

Definition getUnoccupiedCells (b : t) (segmentCells : list (Vector2.t Z))
    (food : option (Vector2.t Z)) : list (Vector2.t Z) :=
  filter (λ c, (c ∉ segmentCells) ∧ (food ≠ Some c)) (allCells b).

End Board.

(* ===================================================================== *)
(** ** Movement processor *)

Inductive Direction : Type := Up | Down | Left | Right.

Global Instance Direction_eq_dec : EqDecision Direction.
Proof. solve_decision. Defined.

Inductive Key : Type :=
| ArrowKey : Direction → Key
| SpaceKey : Key
| OtherKey : Key.

Module PlayerMovementProcessor.

Definition opposite (d : Direction) : Direction :=
  match d with Up => Down | Down => Up | Left => Right | Right => Left end.

(** The grid has its origin at the top left: moving up from (4,4)
    reaches (4,3), moving left from (0,4) reaches (-1,4). *)
Definition vector (d : Direction) : Vector2.t Z :=
  match d with
  | Up => Vector2.mk 0 (-1)
  | Down => Vector2.mk 0 1
  | Left => Vector2.mk (-1) 0
  | Right => Vector2.mk 1 0
  end%Z.

(** Modelled from the spec: the [PlayerMovementProcessor] class of
    [player/player-movement], which is not in the source file.  It keeps
    the current committed direction (none before the first commit) and
    a buffer of at most one pending direction.  A key press queues its
    direction unless it is the opposite of the current committed
    direction, in which case it is dropped; the most recent accepted
    press wins.  [updateDirection] returns the pending direction if
    there is one, else the committed one, else the default, and commits
    it. *)
Record t : Type := mk {
  curDirection : option Direction;
  pendingDirection : option Direction
}.

Definition new : t := mk None None.

Definition defaultDirection : Direction := Up.

Definition keyDirection (k : Key) : option Direction :=
  match k with ArrowKey d => Some d | _ => None end.

Definition isLegal (mp : t) (d : Direction) : bool :=
  match curDirection mp with
  | Some c => bool_decide (d ≠ opposite c)
  | None => true
  end.

Definition onKeyDown (k : Key) (mp : t) : t :=
  match keyDirection k with
  | Some d => if isLegal mp d then mk (curDirection mp) (Some d) else mp
  | None => mp
  end.

Definition nextDirection (mp : t) : Direction :=
  match pendingDirection mp with
  | Some d => d
  | None => default defaultDirection (curDirection mp)
  end.

Definition updateDirection (mp : t) : Vector2.t Z * t :=
  let d := nextDirection mp in
  (vector d, mk (Some d) None).

(** The buffered direction never reverses the committed one. *)
Definition pendingLegal (mp : t) : Prop :=
  ∀ c p, curDirection mp = Some c → pendingDirection mp = Some p →
         p ≠ opposite c.

(** No direction of [ds] is the opposite of the one committed just
    before it, [prev] being the direction committed before the first. *)
Fixpoint noReversal (prev : option Direction) (ds : list Direction) : Prop :=
  match ds with
  | [] => True
  | d :: ds' => (∀ c, prev = Some c → d ≠ opposite c) ∧ noReversal (Some d) ds'
  end.

(** The processor driven by key presses and ticks. *)
Inductive Input : Type :=
| KeyDown : Key → Input
| Tick : Input.

(** The directions committed by the ticks of an input sequence, oldest
    first, and the processor afterwards. *)
Fixpoint run (inputs : list Input) (mp : t) : list Direction * t :=
  match inputs with
  | [] => ([], mp)
  | KeyDown k :: rest => run rest (onKeyDown k mp)
  | Tick :: rest =>
      let d := nextDirection mp in
      let '(ds, mp') := run rest (snd (updateDirection mp)) in
      (d :: ds, mp')
  end.

End PlayerMovementProcessor.

(* ===================================================================== *)
(** ** SnakeSegment *)

Module SnakeSegment.

Record t : Type := mk {
  isControllable : bool;
  nextSegment : option addr;
  tgtCellPos : Vector2.t Z;
  drawCellPos : Vector2.t JsNumber.t
}.

Global Instance inhabited : Inhabited t :=
  populate (mk false None Vector2.zero (Vector2.toDraw Vector2.zero)).

(** [new SnakeSegment(segment, isControllable)].  The target cell is a
    copy of the target of [segment] when there is one (the getter
    returns a fresh vector), otherwise the origin; the draw position
    receives its coordinates. *)
Definition new (h : list t) (segment : option addr) (ctrl : bool) : t :=
  let tgt :=
    match segment with
    | Some n => tgtCellPos (h !!! n)
    | None => Vector2.zero
    end in
  mk ctrl segment tgt (Vector2.toDraw tgt).

(** With [instant] the source makes [_drawCellPos] the very object held
    by [_tgtCellPos], and [moveDrawPosTowardsTgtPos] then writes into
    that one object until the next [moveToCell] rebinds the target.  The
    model keeps two values.  The two agree as long as interpolating a
    coordinate toward itself gives it back, which holds for every finite
    factor and fails for an infinite one; nothing below relies on target
    cells surviving a frame. *)
Definition moveToCell (cellPos : Vector2.t Z) (instant : bool) (s : t) : t :=
  if negb (isControllable s) then s
  else
    mk (isControllable s) (nextSegment s) cellPos
       (if instant then Vector2.toDraw cellPos else drawCellPos s).

Definition followSegment (h : list t) (s : t) : t :=
  match nextSegment s with
  | None => s
  | Some n =>
      mk (isControllable s) (nextSegment s) (tgtCellPos (h !!! n))
         (drawCellPos s)
  end.

Definition moveDrawPosTowardsTgtPos (timeDelta : JsNumber.t) (s : t) : t :=
  let timeDelta :=
    if JsNumber.isNaN timeDelta then JsNumber.ofZ 0 else timeDelta in
  let f := JsNumber.min timeDelta (JsNumber.ofZ 1) in
  let tgt := Vector2.toDraw (tgtCellPos s) in
  mk (isControllable s) (nextSegment s) (tgtCellPos s)
     (Vector2.mk
        (MyMath.lerp (Vector2.x (drawCellPos s)) (Vector2.x tgt) f)
        (MyMath.lerp (Vector2.y (drawCellPos s)) (Vector2.y tgt) f)).


End SnakeSegment.

(* ===================================================================== *)
(** ** Snake *)

Module Snake.

(** [heap] is the store of segment objects; [snakeSegments] and
    [snakeHeadSegment] hold addresses into it. *)
Record t : Type := mk {
  heap : list SnakeSegment.t;
  snakeSegments : list addr;
  snakeHeadSegment : addr;
  movementProcessor : PlayerMovementProcessor.t
}.

(** The target cell of the segment object at address [a]. *)
Definition tgtOf (h : list SnakeSegment.t) (a : addr) : Vector2.t Z :=
  SnakeSegment.tgtCellPos (h !!! a).

Definition drawOf (h : list SnakeSegment.t) (a : addr)
    : Vector2.t JsNumber.t :=
  SnakeSegment.drawCellPos (h !!! a).

(** The target cells of the chain, head first. *)
Definition targets (s : t) : list (Vector2.t Z) :=
  tgtOf (heap s) <$> snakeSegments s.

Definition onKeyDown (k : Key) (s : t) : t :=
  mk (heap s) (snakeSegments s) (snakeHeadSegment s)
     (PlayerMovementProcessor.onKeyDown k (movementProcessor s)).

(** [for (let i = 1; i < this.snakeSegments.length - 1; i++)] *)
Definition cellIsInsidePlayer (s : t) (tgtCell : Vector2.t Z) : bool :=
  existsb
    (λ i, Vector2.equals (tgtOf (heap s) (snakeSegments s !!! i)) tgtCell)
    (seq 1 (length (snakeSegments s) - 2)).

(** One [segment.followSegment()] on the object at [a]. *)
Definition followAt (h : list SnakeSegment.t) (a : addr)
    : list SnakeSegment.t :=
  <[a := SnakeSegment.followSegment h (h !!! a)]> h.

(** [[...this.snakeSegments].reverse().forEach(s => s.followSegment())] *)
Definition followAll (ids : list addr) (h : list SnakeSegment.t)
    : list SnakeSegment.t :=
  foldl followAt h (reverse ids).

Definition moveInDirection (dir : Vector2.t Z) (s : t) : t :=
  let h := followAll (snakeSegments s) (heap s) in
  let hd := snakeHeadSegment s in
  let cell := Vector2.add (tgtOf h hd) dir in
  mk (<[hd := SnakeSegment.moveToCell cell false (h !!! hd)]> h)
     (snakeSegments s) hd (movementProcessor s).

(** The cell the player will try to move into on the next tick. *)
Definition candidate (s : t) : Vector2.t Z :=
  Vector2.add (tgtOf (heap s) (snakeHeadSegment s))
    (fst (PlayerMovementProcessor.updateDirection (movementProcessor s))).

(** [update()]; the boolean tells whether [die()] fired the death
    event.  The subscriber of that event only writes the controller's
    state and timer, so running it after the tick instead of in the
    middle of it makes no difference to the snake. *)
Definition update (b : Board.t) (s : t) : t * bool :=
  let '(moveDirection, mp) :=
    PlayerMovementProcessor.updateDirection (movementProcessor s) in
  let tgtCell :=
    Vector2.add (tgtOf (heap s) (snakeHeadSegment s)) moveDirection in
  let died :=
    negb (Board.cellIsInsideBoard b tgtCell) || cellIsInsidePlayer s tgtCell in
  (moveInDirection moveDirection
     (mk (heap s) (snakeSegments s) (snakeHeadSegment s) mp),
   died).

Definition growSegment (s : t) : t :=
  let lastSegment := list.last (snakeSegments s) in
  let newSegment := SnakeSegment.new (heap s) lastSegment false in
  mk (heap s ++ [newSegment]) (snakeSegments s ++ [length (heap s)])
     (snakeHeadSegment s) (movementProcessor s).

(** The ten [growSegment()] calls are written as an iteration. *)
Definition resetForStart (b : Board.t) (s : t) : t :=
  let hd := snakeHeadSegment s in
  let h :=
    <[hd := SnakeSegment.moveToCell (Board.getCenterCell b) true
              (heap s !!! hd)]> (heap s) in
  Nat.iter 10 growSegment (mk h [hd] hd (movementProcessor s)).

(** The constructor: a controllable head with no next segment, then
    [resetForStart()]. *)
Definition new (b : Board.t) : t :=
  resetForStart b
    (mk [SnakeSegment.new [] None true] [] 0 PlayerMovementProcessor.new).

(** The position update of [draw(timeDelta)]; the canvas calls that
    follow it only read the segments. *)
Definition draw (timeDelta : JsNumber.t) (s : t) : t :=
  let smoothSpeed := JsNumber.mul timeDelta (JsNumber.ofZ 20) in
  mk (foldl
        (λ h a,
           <[a := SnakeSegment.moveDrawPosTowardsTgtPos smoothSpeed (h !!! a)]> h)
        (heap s) (snakeSegments s))
     (snakeSegments s) (snakeHeadSegment s) (movementProcessor s).


(** *** Well-formed chains

    What every snake built by the constructor satisfies: the array
    starts with the head object, holds each object once, the head is
    the controllable segment with no next segment, and every other
    element is a non-controllable segment whose [nextSegment] is the
    element before it. *)
Fixpoint linked (h : list SnakeSegment.t) (prev : addr) (l : list addr)
    : Prop :=
  match l with
  | [] => True
  | a :: l' =>
      SnakeSegment.nextSegment <$> h !! a = Some (Some prev) ∧
      SnakeSegment.isControllable <$> h !! a = Some false ∧
      linked h a l'
  end.

Definition wf (s : t) : Prop :=
  head (snakeSegments s) = Some (snakeHeadSegment s) ∧
  NoDup (snakeSegments s) ∧
  SnakeSegment.isControllable <$> heap s !! snakeHeadSegment s = Some true ∧
  SnakeSegment.nextSegment <$> heap s !! snakeHeadSegment s = Some None ∧
  linked (heap s) (snakeHeadSegment s) (tail (snakeSegments s)).

Global Instance linked_dec h prev l : Decision (linked h prev l).
Proof. revert prev. induction l; intros prev; simpl; apply _. Defined.

Global Instance wf_dec s : Decision (wf s).
Proof. unfold wf. apply _. Defined.

End Snake.

(* ===================================================================== *)
(** ** Food dispenser *)

Module FoodDispenser.

(** Modelled from the spec: the [FoodDispenser] class of
    [food/food-dispenser], which is not in the source file.  It holds at
    most one active food cell; [reset] clears it; [spawnNewPrey] picks
    one of the board's currently unoccupied cells and fails only when
    there is none.  The random pick is the argument [rnd]. *)
Record t : Type := mk { prey : option (Vector2.t Z) }.

Definition reset (d : t) : t := mk None.

Definition spawnNewPrey (rnd : nat) (unoccupied : list (Vector2.t Z)) (d : t)
    : t * option (Vector2.t Z) :=
  match unoccupied !! (rnd `mod` length unoccupied) with
  | Some c => (mk (Some c), Some c)
  | None => (d, None)
  end.

End FoodDispenser.

(* ===================================================================== *)
(** ** Game controller *)

Inductive GameState : Type := MainMenu | Playing | GameOver | Victorious.

Global Instance GameState_eq_dec : EqDecision GameState.
Proof. solve_decision. Defined.

Module GameController.

(** [gameIntervalActive] stands for the interval timer behind
    [gameIntervalId]: set by [setInterval], cleared by [clearInterval]. *)
Record t : Type := mk {
  player : Snake.t;
  board : Board.t;
  preyDispenser : FoodDispenser.t;
  score : Z;
  gameState : GameState;
  gameIntervalActive : bool
}.

Definition boardNumCellsWide : Z := 9.

Definition setPlayer (p : Snake.t) (g : t) : t :=
  mk p (board g) (preyDispenser g) (score g) (gameState g)
     (gameIntervalActive g).

(** [this.board.getUnoccupiedCells()]: the board reads the segments and
    the active food through the controller. *)
Definition unoccupiedCells (g : t) : list (Vector2.t Z) :=
  Board.getUnoccupiedCells (board g) (Snake.targets (player g))
    (FoodDispenser.prey (preyDispenser g)).

(** The source goes on with [player.setPrey(newPrey)]; the [Snake]
    class of the source file defines no [setPrey] and keeps no food, so
    in the model only the dispenser changes. *)
Definition spawnPrey (rnd : nat) (g : t) : t :=
  let '(d, newPrey) :=
    FoodDispenser.spawnNewPrey rnd (unoccupiedCells g) (preyDispenser g) in
  mk (player g) (board g) d (score g) (gameState g) (gameIntervalActive g).

Definition gameOver (won : bool) (g : t) : t :=
  mk (player g) (board g) (preyDispenser g) (score g)
     (if won then Victorious else GameOver) false.

(** The source calls [player.reset()]; the [Snake] class of the source
    file has no method of that name, its reset is [resetForStart], which
    is what the model calls.  The board keeps no state of its own. *)
Definition resetGame (rnd : nat) (g : t) : t :=
  spawnPrey rnd
    (mk (Snake.resetForStart (board g) (player g)) (board g)
        (FoodDispenser.reset (preyDispenser g)) 0 (gameState g)
        (gameIntervalActive g)).

Definition goToMainMenu (rnd : nat) (g : t) : t :=
  resetGame rnd
    (mk (player g) (board g) (preyDispenser g) (score g) MainMenu
        (gameIntervalActive g)).

Definition onPreyEaten (rnd : nat) (g : t) : t :=
  let g1 :=
    mk (player g) (board g) (preyDispenser g) (score g + 1) (gameState g)
       (gameIntervalActive g) in
  let numCellsLeft := length (unoccupiedCells g1) in
  if decide (0 < numCellsLeft) then spawnPrey rnd g1 else gameOver true g1.

(** [Snake.eat()]: grow, then call back into the controller.  The
    source calls [gameControl.onFoodEaten()]; the controller of the
    source file names its handler [onPreyEaten], which is what the model
    calls.  Nothing in the source calls [eat]. *)
Definition eat (rnd : nat) (g : t) : t :=
  onPreyEaten rnd (setPlayer (Snake.growSegment (player g)) g).

(** The timer callback.  On death the snake emits on [deathSubject];
    the controller subscribes [gameOver(false)] to [player.deathEvent],
    which the model reads as the stream of that subject. *)
Definition doGameUpdate (g : t) : t :=
  let '(p, died) := Snake.update (board g) (player g) in
  let g1 := setPlayer p g in
  if died then gameOver false g1 else g1.

Definition startGame (k : Key) (g : t) : t :=
  mk (Snake.onKeyDown k (player g)) (board g) (preyDispenser g) (score g)
     Playing true.

Definition isArrowKey (k : Key) : bool :=
  match k with ArrowKey _ => true | _ => false end.

Definition onKeyDown (rnd : nat) (k : Key) (g : t) : t :=
  match gameState g with
  | Playing => setPlayer (Snake.onKeyDown k (player g)) g
  | MainMenu => if isArrowKey k then startGame k g else g
  | GameOver | Victorious =>
      match k with SpaceKey => goToMainMenu rnd g | _ => g end
  end.

(** The constructor.  The source writes [new Snake(this, drawCtx)]
    where the [Snake] class takes [(drawCtx, gameControl)]; the model
    gives the snake the controller's board, the one thing it reads from
    the controller. *)
Definition new (rnd : nat) : t :=
  let b := Board.mk boardNumCellsWide in
  resetGame rnd (mk (Snake.new b) b (FoodDispenser.mk None) 0 MainMenu false).

(** What the host delivers to the controller: a key press, a firing of
    the interval timer (only while it is registered), and the player's
    food-eaten notification. *)
Inductive Event : Type :=
| KeyPressed : Key → Event
| TimerFired : Event
| PreyEaten : Event.

Definition step (rnd : nat) (ev : Event) (g : t) : t :=
  match ev with
  | KeyPressed k => onKeyDown rnd k g
  | TimerFired => if gameIntervalActive g then doGameUpdate g else g
  | PreyEaten => onPreyEaten rnd g
  end.

(** [draw(timeDeltaS)]: the board and the food only paint; the player's
    [draw] also moves the draw positions. *)
Definition draw (timeDeltaS : JsNumber.t) (g : t) : t :=
  setPlayer (Snake.draw timeDeltaS (player g)) g.

(** Everything that can happen to a running controller: an event is
    delivered, a frame is drawn, or the snake eats. *)
Inductive Action : Type :=
| Deliver : nat → Event → Action
| DrawFrame : JsNumber.t → Action
| SnakeEats : nat → Action.

Definition perform (g : t) (a : Action) : t :=
  match a with
  | Deliver rnd ev => step rnd ev g
  | DrawFrame timeDeltaS => draw timeDeltaS g
  | SnakeEats rnd => eat rnd g
  end.

(** The controller after a history of actions, oldest first. *)
Definition run (actions : list Action) (g : t) : t := foldl perform g actions.

(** What holds of every controller built by the constructor and driven
    by events, frames and meals. *)
Definition sound (g : t) : Prop :=
  Snake.wf (player g) ∧
  11 ≤ length (Snake.snakeSegments (player g)) ∧
  (gameIntervalActive g = true ↔ gameState g = Playing) ∧
  (0 ≤ score g)%Z.

End GameController.

(* ===================================================================== *)
(** ** Scenarios

    Concrete states of the default game (a 9 by 9 board), reached by
    running the operations above. *)

Module Scenario.

Definition board9 : Board.t := Board.mk GameController.boardNumCellsWide.

(** The snake as the constructor leaves it. *)
Definition fresh : Snake.t := Snake.new board9.

Definition ticks (n : nat) (g : GameController.t) : GameController.t :=
  Nat.iter n (GameController.step 0 GameController.TimerFired) g.

(** A new game started with the left arrow, four ticks later: the head
    has reached the left edge, at (0,4). *)
Definition atLeftWall : GameController.t :=
  ticks 4
    (GameController.step 0 (GameController.KeyPressed (ArrowKey Left))
       (GameController.new 0)).

(** A new game whose first food is at (4,3), right above the head,
    started with the up arrow. *)
Definition foodAhead : GameController.t :=
  GameController.step 0 (GameController.KeyPressed (ArrowKey Up))
    (GameController.new 39).

(** A spiral from the centre that visits every cell of the board. *)
Definition spiral : list Direction :=
  '(d, n) ← [(Up, 1); (Right, 1); (Down, 2); (Left, 2); (Up, 3); (Right, 3);
             (Down, 4); (Left, 4); (Up, 5); (Right, 5); (Down, 6); (Left, 6);
             (Up, 7); (Right, 7); (Down, 8); (Left, 8); (Up, 8)];
  replicate n d.

Definition drive (s : Snake.t) (d : Direction) : Snake.t :=
  fst (Snake.update board9 (Snake.onKeyDown (ArrowKey d) s)).

(** A snake of 81 segments laid along the spiral: it covers the board. *)
Definition coiled : Snake.t :=
  foldl drive (Nat.iter 70 Snake.growSegment fresh) spiral.

Definition fullBoard : GameController.t :=
  GameController.mk coiled board9 (FoodDispenser.mk None) 70 Playing true.

(** The fresh snake after ten ticks (up four, left four, down two): its
    eleven segments lie on eleven cells, the head at (0,2) going down. *)
Definition stretched : Snake.t :=
  foldl drive fresh
    [Up; Up; Up; Up; Left; Left; Left; Left; Down; Down].

(** The fresh snake after going up, right and down, with the left arrow
    pressed: the next tick takes the head back onto the centre cell,
    where most of the body still is. *)
Definition loopingBack : Snake.t :=
  Snake.onKeyDown (ArrowKey Left) (foldl drive fresh [Up; Right; Down]).

(** A head with no body. *)
Definition headOnly : Snake.t :=
  Snake.mk [SnakeSegment.new [] None true] [0] 0 PlayerMovementProcessor.new.

End Scenario.

(* ===================================================================== *)
(** * Properties *)

Lemma Vector2_equals_spec (a b : Vector2.t Z) : Vector2.equals a b = true ↔ a = b.
Proof.
  destruct a as [ax ay], b as [bx by']. unfold Vector2.equals. simpl.
  rewrite andb_true_iff, !Z.eqb_eq. split.
  - intros [-> ->]. reflexivity.
  - intros H. injection H as -> ->. split; reflexivity.
Qed.

(** ** The store under [followSegment] *)

Section Store.

Implicit Types (h : list SnakeSegment.t) (a p : addr) (l : list addr).

Lemma lookup_total_of_lookup h a sg : h !! a = Some sg → h !!! a = sg.
Proof. apply list_lookup_total_correct. Qed.

Lemma insert_total_id h a : <[a := h !!! a]> h = h.
Proof.
  destruct (h !! a) as [sg|] eqn:E.
  - rewrite (lookup_total_of_lookup _ _ _ E). by apply list_insert_id.
  - apply list_insert_ge. by apply lookup_ge_None.
Qed.

Lemma followAt_length h a : length (Snake.followAt h a) = length h.
Proof. unfold Snake.followAt. apply length_insert. Qed.

Lemma followAt_lookup_ne h a a' :
  a ≠ a' → Snake.followAt h a !! a' = h !! a'.
Proof. intros. unfold Snake.followAt. by apply list_lookup_insert_ne. Qed.

Lemma followAt_lookup_eq h a sg :
  h !! a = Some sg →
  Snake.followAt h a !! a = Some (SnakeSegment.followSegment h sg).
Proof.
  intros E. unfold Snake.followAt.
  rewrite (lookup_total_of_lookup _ _ _ E).
  apply list_lookup_insert_eq. apply lookup_lt_is_Some. eauto.
Qed.

(** A follow step rewrites a target cell and nothing else. *)
Lemma followAt_other_fields h a a' :
  SnakeSegment.nextSegment <$> Snake.followAt h a !! a'
    = SnakeSegment.nextSegment <$> h !! a' ∧
  SnakeSegment.isControllable <$> Snake.followAt h a !! a'
    = SnakeSegment.isControllable <$> h !! a' ∧
  SnakeSegment.drawCellPos <$> Snake.followAt h a !! a'
    = SnakeSegment.drawCellPos <$> h !! a'.
Proof.
  destruct (decide (a = a')) as [<-|Hne].
  - destruct (h !! a) as [sg|] eqn:E.
    + rewrite (followAt_lookup_eq _ _ _ E). unfold SnakeSegment.followSegment.
      destruct (SnakeSegment.nextSegment sg) eqn:En; simpl; by rewrite ?En.
    + unfold Snake.followAt. rewrite list_insert_ge, E; [done|].
      by apply lookup_ge_None.
  - by rewrite followAt_lookup_ne.
Qed.

Lemma followAll_cons a l h :
  Snake.followAll (a :: l) h = Snake.followAt (Snake.followAll l h) a.
Proof. unfold Snake.followAll. by rewrite reverse_cons, foldl_snoc. Qed.

Lemma followAll_length l h : length (Snake.followAll l h) = length h.
Proof.
  induction l as [|a l IH]; [done|].
  by rewrite followAll_cons, followAt_length.
Qed.

(** Objects outside the list are not touched. *)
Lemma followAll_frame l h a : a ∉ l → Snake.followAll l h !! a = h !! a.
Proof.
  induction l as [|b l IH]; [done|]. intros Hn.
  apply not_elem_of_cons in Hn as [Hne Hn].
  rewrite followAll_cons, followAt_lookup_ne by done. by apply IH.
Qed.

Lemma followAll_other_fields l h a :
  SnakeSegment.nextSegment <$> Snake.followAll l h !! a
    = SnakeSegment.nextSegment <$> h !! a ∧
  SnakeSegment.isControllable <$> Snake.followAll l h !! a
    = SnakeSegment.isControllable <$> h !! a ∧
  SnakeSegment.drawCellPos <$> Snake.followAll l h !! a
    = SnakeSegment.drawCellPos <$> h !! a.
Proof.
  induction l as [|b l IH]; [done|].
  rewrite followAll_cons.
  destruct (followAt_other_fields (Snake.followAll l h) b a) as (-> & -> & ->).
  exact IH.
Qed.

Lemma tgtOf_lookup h h' a :
  h' !! a = h !! a → Snake.tgtOf h' a = Snake.tgtOf h a.
Proof.
  intros E. unfold Snake.tgtOf. by rewrite !list_lookup_total_alt, E.
Qed.

(** [linked] only looks at the [nextSegment] and [isControllable]
    fields. *)
Lemma linked_ext h h' p l :
  (∀ a, SnakeSegment.nextSegment <$> h' !! a
          = SnakeSegment.nextSegment <$> h !! a) →
  (∀ a, SnakeSegment.isControllable <$> h' !! a
          = SnakeSegment.isControllable <$> h !! a) →
  Snake.linked h p l → Snake.linked h' p l.
Proof.
  intros Hn Hc. revert p.
  induction l as [|a l IH]; intros p; simpl; [done|].
  rewrite Hn, Hc. intros (? & ? & ?). eauto.
Qed.

Lemma linked_is_Some h p l a :
  Snake.linked h p l → a ∈ l → is_Some (h !! a).
Proof.
  revert p. induction l as [|b l IH]; intros p; simpl.
  - intros _ Hin. by apply elem_of_nil in Hin.
  - intros (Hn & _ & Hl) Hin. apply elem_of_cons in Hin as [->|Hin].
    + destruct (h !! b); [eauto | discriminate].
    + eauto.
Qed.

(** The follow pass over a linked list of objects, tail first: the
    object at position [i] ends with the target its predecessor had
    before the pass. *)
Lemma followAll_linked l : ∀ h p i a,
  NoDup (p :: l) → Snake.linked h p l → l !! i = Some a →
  Snake.tgtOf (Snake.followAll l h) a = Snake.tgtOf h ((p :: l) !!! i).
Proof.
  induction l as [|b l IH]; intros h p i a Hnd Hl Hi; [done|].
  apply list.NoDup_cons in Hnd as [Hp Hnd].
  apply not_elem_of_cons in Hp as [Hpb Hpl].
  pose proof Hnd as Hnd'. apply list.NoDup_cons in Hnd' as [Hb _].
  simpl in Hl. destruct Hl as (Hnext & _ & Hl).
  rewrite followAll_cons. destruct i as [|i]; simpl in Hi.
  - injection Hi as <-. simpl.
    destruct (h !! b) as [sg|] eqn:E; [|discriminate].
    injection Hnext as Hnext.
    assert (Snake.followAll l h !! b = Some sg) as E'.
    { by rewrite followAll_frame. }
    unfold Snake.tgtOf at 1.
    rewrite (lookup_total_of_lookup _ _ _ (followAt_lookup_eq _ _ _ E')).
    unfold SnakeSegment.followSegment. rewrite Hnext. simpl.
    apply tgtOf_lookup. by apply followAll_frame.
  - assert (b ≠ a) as Hne.
    { intros ->. apply Hb. by eapply list_elem_of_lookup_2. }
    rewrite (tgtOf_lookup (Snake.followAll l h));
      [|by apply followAt_lookup_ne].
    by apply (IH h b i a).
Qed.

End Store.

(* ===================================================================== *)
(** ** The tick *)

Section Tick.

Implicit Types (s : Snake.t) (b : Board.t) (c : Vector2.t Z).

(** What [wf] gives, in the shape the proofs use. *)
Lemma wf_inv s :
  Snake.wf s →
  ∃ rest sg,
    Snake.snakeSegments s = Snake.snakeHeadSegment s :: rest ∧
    Snake.heap s !! Snake.snakeHeadSegment s = Some sg ∧
    SnakeSegment.isControllable sg = true ∧
    SnakeSegment.nextSegment sg = None ∧
    NoDup (Snake.snakeHeadSegment s :: rest) ∧
    Snake.linked (Snake.heap s) (Snake.snakeHeadSegment s) rest.
Proof.
  intros (Hhd & Hnd & Hc & Hn & Hl).
  destruct (Snake.snakeSegments s) as [|a rest] eqn:E; [discriminate|].
  simpl in Hhd. injection Hhd as ->. simpl in Hl.
  destruct (Snake.heap s !! Snake.snakeHeadSegment s) as [sg|]; [|discriminate].
  injection Hc as Hc. injection Hn as Hn.
  by exists rest, sg.
Qed.

Lemma wf_valid s a :
  Snake.wf s → a ∈ Snake.snakeSegments s → is_Some (Snake.heap s !! a).
Proof.
  intros (rest & sg & -> & Hsg & _ & _ & _ & Hl)%wf_inv Hin.
  apply elem_of_cons in Hin as [->|Hin]; [eauto|].
  by eapply linked_is_Some.
Qed.

Lemma followAt_no_next (h : list SnakeSegment.t) a :
  SnakeSegment.nextSegment <$> h !! a = Some None → Snake.followAt h a = h.
Proof.
  intros Hn. unfold Snake.followAt.
  destruct (h !! a) as [sg|] eqn:E; [|discriminate]. injection Hn as Hn.
  rewrite (lookup_total_of_lookup _ _ _ E).
  unfold SnakeSegment.followSegment. rewrite Hn. by apply list_insert_id.
Qed.

(** The body pass followed by the head's move, on a well-formed chain. *)
Lemma moveInDirection_spec dir s :
  Snake.wf s →
  let s' := Snake.moveInDirection dir s in
  Snake.snakeSegments s' = Snake.snakeSegments s ∧
  Snake.snakeHeadSegment s' = Snake.snakeHeadSegment s ∧
  Snake.movementProcessor s' = Snake.movementProcessor s ∧
  Snake.tgtOf (Snake.heap s') (Snake.snakeHeadSegment s)
    = Vector2.add (Snake.tgtOf (Snake.heap s) (Snake.snakeHeadSegment s)) dir ∧
  (∀ i a, Snake.snakeSegments s !! S i = Some a →
     Snake.tgtOf (Snake.heap s') a
       = Snake.tgtOf (Snake.heap s) (Snake.snakeSegments s !!! i)) ∧
  (∀ a, SnakeSegment.nextSegment <$> Snake.heap s' !! a
          = SnakeSegment.nextSegment <$> Snake.heap s !! a) ∧
  (∀ a, SnakeSegment.isControllable <$> Snake.heap s' !! a
          = SnakeSegment.isControllable <$> Snake.heap s !! a) ∧
  (∀ a, SnakeSegment.drawCellPos <$> Snake.heap s' !! a
          = SnakeSegment.drawCellPos <$> Snake.heap s !! a).
Proof.
  intros Hwf. destruct (wf_inv s Hwf) as (rest & sg & Hids & Hsg & Hc & Hn & Hnd & Hl).
  pose proof Hnd as Hnd'. apply list.NoDup_cons in Hnd' as [Hhd _].
  unfold Snake.moveInDirection. simpl. rewrite Hids.
  set (hd := Snake.snakeHeadSegment s) in *.
  set (h := Snake.heap s) in *.
  assert (Snake.followAll rest h !! hd = Some sg) as Hsg1.
  { by rewrite followAll_frame. }
  assert (Snake.followAll (hd :: rest) h = Snake.followAll rest h) as ->.
  { rewrite followAll_cons. apply followAt_no_next. rewrite Hsg1. simpl. by rewrite Hn. }
  set (h1 := Snake.followAll rest h) in *.
  assert (hd < length h1) as Hlt.
  { apply lookup_lt_is_Some. eauto. }
  rewrite (lookup_total_of_lookup _ _ _ Hsg1).
  assert (Snake.tgtOf h1 hd = Snake.tgtOf h hd) as Ht.
  { apply tgtOf_lookup. by rewrite Hsg1. }
  unfold SnakeSegment.moveToCell. rewrite Hc. simpl.
  repeat split.
  - unfold Snake.tgtOf at 1.
    rewrite (lookup_total_of_lookup _ hd _ (list_lookup_insert_eq _ _ _ Hlt)).
    simpl. by rewrite Ht.
  - intros i a Hi.
    assert (a ≠ hd) as Hne.
    { intros ->. apply Hhd. by eapply list_elem_of_lookup_2. }
    rewrite (tgtOf_lookup h1); [|by apply list_lookup_insert_ne].
    by apply (followAll_linked rest h hd i a).
  - intros a. destruct (decide (a = hd)) as [->|Hne].
    + rewrite list_lookup_insert_eq by done. fold h. by rewrite Hsg.
    + rewrite list_lookup_insert_ne by done.
      apply followAll_other_fields.
  - intros a. destruct (decide (a = hd)) as [->|Hne].
    + rewrite list_lookup_insert_eq by done. fold h. rewrite Hsg. simpl. by rewrite Hc.
    + rewrite list_lookup_insert_ne by done.
      apply followAll_other_fields.
  - intros a. destruct (decide (a = hd)) as [->|Hne].
    + rewrite list_lookup_insert_eq by done. fold h. by rewrite Hsg.
    + rewrite list_lookup_insert_ne by done.
      apply followAll_other_fields.
Qed.

Lemma update_fst b s :
  fst (Snake.update b s)
  = Snake.moveInDirection
      (fst (PlayerMovementProcessor.updateDirection (Snake.movementProcessor s)))
      (Snake.mk (Snake.heap s) (Snake.snakeSegments s)
         (Snake.snakeHeadSegment s)
         (snd (PlayerMovementProcessor.updateDirection
                 (Snake.movementProcessor s)))).
Proof. reflexivity. Qed.

Lemma update_snd b s :
  snd (Snake.update b s)
  = negb (Board.cellIsInsideBoard b (Snake.candidate s))
    || Snake.cellIsInsidePlayer s (Snake.candidate s).
Proof. reflexivity. Qed.

(** The tick keeps the chain well formed. *)
Lemma wf_update b s : Snake.wf s → Snake.wf (fst (Snake.update b s)).
Proof.
  intros Hwf. rewrite update_fst.
  set (s1 := Snake.mk _ _ _ _).
  assert (Snake.wf s1) as Hwf1 by exact Hwf.
  destruct (moveInDirection_spec
              (fst (PlayerMovementProcessor.updateDirection
                      (Snake.movementProcessor s))) s1 Hwf1)
    as (Hids & Hhd & _ & _ & _ & Hn & Hc & _).
  destruct Hwf1 as (H1 & H2 & H3 & H4 & H5).
  unfold Snake.wf. rewrite Hids, Hhd, Hn, Hc.
  repeat split; try done.
  by apply (linked_ext (Snake.heap s1)).
Qed.

Lemma add_vector_ne c d :
  Vector2.add c (PlayerMovementProcessor.vector d) ≠ c.
Proof.
  destruct c as [cx cy]. unfold Vector2.add.
  destruct d; simpl; intros H; injection H; lia.
Qed.

Lemma targets_lookup s i :
  i < length (Snake.snakeSegments s) →
  Snake.targets s !! i
  = Some (Snake.tgtOf (Snake.heap s) (Snake.snakeSegments s !!! i)).
Proof.
  intros Hi. unfold Snake.targets.
  by rewrite list_lookup_fmap, (list_lookup_lookup_total_lt _ _ Hi).
Qed.

(** The loop of [cellIsInsidePlayer] looks at the positions strictly
    between the head and the tail. *)
Lemma cellIsInsidePlayer_spec s c :
  Snake.cellIsInsidePlayer s c = true ↔
  ∃ i, 0 < i < length (Snake.snakeSegments s) - 1 ∧
       Snake.targets s !! i = Some c.
Proof.
  unfold Snake.cellIsInsidePlayer. rewrite existsb_exists. split.
  - intros (i & Hin & He). apply in_seq in Hin.
    apply Vector2_equals_spec in He. exists i. split; [lia|].
    rewrite targets_lookup by lia. by rewrite He.
  - intros (i & Hi & Ht). exists i. split; [apply in_seq; lia|].
    rewrite targets_lookup in Ht by lia. injection Ht as Ht.
    by apply Vector2_equals_spec.
Qed.

End Tick.

(** ** Claims about the tick *)

Ltac by_evaluation := apply (bool_decide_unpack _); vm_compute; exact I.

Section TickClaims.

Implicit Types (s : Snake.t) (b : Board.t).

(** On every tick of a well-formed snake, whatever the death check
    said: the chain holds the same objects, each body segment takes the
    target its predecessor had, and the head takes the candidate
    cell. *)
Lemma update_chain b s :
  Snake.wf s →
  let s' := fst (Snake.update b s) in
  Snake.snakeSegments s' = Snake.snakeSegments s ∧
  Snake.snakeHeadSegment s' = Snake.snakeHeadSegment s ∧
  (∀ i a p, Snake.snakeSegments s !! S i = Some a →
     Snake.snakeSegments s !! i = Some p →
     Snake.tgtOf (Snake.heap s') a = Snake.tgtOf (Snake.heap s) p) ∧
  Snake.tgtOf (Snake.heap s') (Snake.snakeHeadSegment s) = Snake.candidate s.
Proof.
  intros Hwf. cbv zeta. rewrite update_fst.
  set (s1 := Snake.mk _ _ _ _).
  destruct (moveInDirection_spec
              (fst (PlayerMovementProcessor.updateDirection
                      (Snake.movementProcessor s))) s1 Hwf)
    as (Hids & Hhd & _ & Ht & Hbody & _).
  repeat split; try done.
  intros i a p Ha Hp. rewrite (Hbody i a Ha). simpl.
  by rewrite (list_lookup_total_correct _ _ _ Hp).
Qed.

(** C2. On a tick whose candidate cell is on the board and is not the
    target of a segment strictly between head and tail, the chain
    length is unchanged, every non-head segment's new target cell is
    the target cell its predecessor toward the head held before the
    tick, and the head's new target cell is the candidate cell. *)
Theorem update_follows_the_leader b s :
  Snake.wf s →
  Board.cellIsInsideBoard b (Snake.candidate s) = true →
  (∀ i, 0 < i < length (Snake.snakeSegments s) - 1 →
        Snake.targets s !! i ≠ Some (Snake.candidate s)) →
  let s' := fst (Snake.update b s) in
  snd (Snake.update b s) = false ∧
  length (Snake.snakeSegments s') = length (Snake.snakeSegments s) ∧
  (∀ i a p, Snake.snakeSegments s' !! S i = Some a →
     Snake.snakeSegments s !! i = Some p →
     Snake.tgtOf (Snake.heap s') a = Snake.tgtOf (Snake.heap s) p) ∧
  Snake.tgtOf (Snake.heap s') (Snake.snakeHeadSegment s') = Snake.candidate s.
Proof.
  intros Hwf Hin Hfree.
  destruct (update_chain b s Hwf) as (Hids & Hhd & Hbody & Hhead).
  cbv zeta. rewrite Hids, Hhd. repeat split; try done.
  rewrite update_snd, Hin. simpl.
  destruct (Snake.cellIsInsidePlayer s (Snake.candidate s)) eqn:E; [|done].
  apply cellIsInsidePlayer_spec in E as (i & Hi & Ht).
  by destruct (Hfree i Hi).
Qed.

(** C3. The tick signals death exactly when the candidate cell is off
    the board or is the target cell of a segment other than the
    tail. *)
Theorem death_iff_off_board_or_in_body b s :
  Snake.wf s →
  snd (Snake.update b s) = true ↔
  Board.cellIsInsideBoard b (Snake.candidate s) = false ∨
  ∃ i, i < length (Snake.snakeSegments s) - 1 ∧
       Snake.targets s !! i = Some (Snake.candidate s).
Proof.
  intros Hwf. rewrite update_snd, orb_true_iff, negb_true_iff.
  rewrite cellIsInsidePlayer_spec. split.
  - intros [?|(i & Hi & Ht)]; [by left|]. right. exists i. split; [lia|done].
  - intros [?|(i & Hi & Ht)]; [by left|]. right. exists i. split; [|done].
    destruct i as [|i]; [|lia]. exfalso.
    destruct (wf_inv s Hwf) as (rest & sg & Hids & _).
    rewrite targets_lookup in Ht by lia. rewrite Hids in Ht. simpl in Ht.
    injection Ht as Ht. unfold Snake.candidate in Ht. symmetry in Ht.
    by apply add_vector_ne in Ht.
Qed.

(** On a death tick the head's target cell still changes. *)
Lemma death_tick_moves_head b s :
  Snake.wf s →
  snd (Snake.update b s) = true →
  Snake.tgtOf (Snake.heap (fst (Snake.update b s))) (Snake.snakeHeadSegment s)
    = Snake.candidate s ∧
  Snake.candidate s ≠ Snake.tgtOf (Snake.heap s) (Snake.snakeHeadSegment s).
Proof.
  intros Hwf _. destruct (update_chain b s Hwf) as (_ & _ & _ & Hhead).
  split; [done|]. apply add_vector_ne.
Qed.

End TickClaims.

Lemma update_follows_the_leader_witness :
  Snake.wf Scenario.fresh ∧
  Snake.candidate Scenario.fresh = Vector2.mk 4%Z 3%Z ∧
  snd (Snake.update Scenario.board9 Scenario.fresh) = false ∧
  Snake.tgtOf (Snake.heap (fst (Snake.update Scenario.board9 Scenario.fresh)))
    (Snake.snakeHeadSegment (fst (Snake.update Scenario.board9 Scenario.fresh)))
  = Snake.candidate Scenario.fresh.
Proof.
  assert (Snake.wf Scenario.fresh) as Hwf by by_evaluation.
  split; [exact Hwf|]. split; [reflexivity|].
  refine ((λ H, conj (proj1 H) (proj2 (proj2 (proj2 H))))
            (update_follows_the_leader Scenario.board9 Scenario.fresh Hwf _ _)).
  - reflexivity.
  - intros i Hi Ht.
    assert (Snake.cellIsInsidePlayer Scenario.fresh
              (Snake.candidate Scenario.fresh) = true) as E.
    { apply cellIsInsidePlayer_spec. eauto. }
    vm_compute in E. discriminate E.
Defined.

Lemma death_iff_off_board_or_in_body_witness :
  Snake.wf (GameController.player Scenario.atLeftWall) ∧
  snd (Snake.update Scenario.board9 (GameController.player Scenario.atLeftWall))
    = true.
Proof.
  assert (Snake.wf (GameController.player Scenario.atLeftWall)) as Hwf
    by by_evaluation.
  split; [exact Hwf|].
  apply (death_iff_off_board_or_in_body Scenario.board9 _ Hwf).
  left. reflexivity.
Defined.

(** C1, on the code.  The head is at (0,4) and the committed direction is
    left, so the candidate cell (-1,4) is off the board: the tick signals
    death and the game is over, yet the head's target becomes (-1,4) and
    every body segment moves up by one. *)
Theorem death_tick_still_moves :
  let g := Scenario.atLeftWall in
  let g' := GameController.step 0 GameController.TimerFired g in
  GameController.gameState g = Playing ∧
  head (Snake.targets (GameController.player g)) = Some (Vector2.mk 0%Z 4)%Z ∧
  Snake.candidate (GameController.player g) = Vector2.mk (-1)%Z 4%Z ∧
  snd (Snake.update (GameController.board g) (GameController.player g)) = true ∧
  GameController.gameState g' = GameOver ∧
  head (Snake.targets (GameController.player g')) = Some (Vector2.mk (-1)%Z 4)%Z ∧
  Snake.targets (GameController.player g')
    ≠ Snake.targets (GameController.player g).
Proof. vm_compute. repeat split. discriminate. Qed.

(* ===================================================================== *)
(** ** Growth and reset *)

Section Growth.

Implicit Types (s : Snake.t) (h : list SnakeSegment.t) (l : list addr).

Lemma linked_app_heap h k p l :
  Snake.linked h p l → Snake.linked (h ++ k) p l.
Proof.
  revert p. induction l as [|a l IH]; intros p; simpl; [done|].
  intros (Hn & Hc & Hl).
  destruct (h !! a) as [sg|] eqn:E; [|discriminate].
  rewrite (lookup_app_l_Some _ _ _ _ E). eauto.
Qed.

Lemma linked_snoc h p l n t :
  list.last (p :: l) = Some t →
  Snake.linked h p l →
  SnakeSegment.nextSegment <$> h !! n = Some (Some t) →
  SnakeSegment.isControllable <$> h !! n = Some false →
  Snake.linked h p (l ++ [n]).
Proof.
  revert p. induction l as [|a l IH]; intros p Hlast Hl Hn Hc.
  - simpl in Hlast. injection Hlast as ->. by simpl.
  - simpl in Hl. destruct Hl as (? & ? & Hl). simpl.
    repeat split; try done. by apply IH.
Qed.

Lemma tgtOf_app h k a :
  is_Some (h !! a) → Snake.tgtOf (h ++ k) a = Snake.tgtOf h a.
Proof.
  intros [sg E]. apply tgtOf_lookup. by rewrite (lookup_app_l_Some _ _ _ _ E).
Qed.

(** What [growSegment] does to a chain with a last element [t]. *)
Lemma growSegment_spec s t :
  list.last (Snake.snakeSegments s) = Some t →
  let s' := Snake.growSegment s in
  let n := length (Snake.heap s) in
  Snake.snakeSegments s' = Snake.snakeSegments s ++ [n] ∧
  Snake.snakeHeadSegment s' = Snake.snakeHeadSegment s ∧
  Snake.movementProcessor s' = Snake.movementProcessor s ∧
  Snake.heap s' = Snake.heap s ++
    [SnakeSegment.mk false (Some t) (Snake.tgtOf (Snake.heap s) t)
       (Vector2.toDraw (Snake.tgtOf (Snake.heap s) t))].
Proof.
  intros Hlast. unfold Snake.growSegment. simpl. rewrite Hlast.
  by repeat split.
Qed.

Lemma wf_growSegment s : Snake.wf s → Snake.wf (Snake.growSegment s).
Proof.
  intros Hwf.
  destruct (wf_inv s Hwf) as (rest & sg & Hids & Hsg & Hc & Hn & Hnd & Hl).
  assert (∃ t, list.last (Snake.snakeSegments s) = Some t) as [t Hlast].
  { rewrite Hids. destruct (list.last (Snake.snakeHeadSegment s :: rest)) eqn:E;
      [eauto|]. by apply last_None in E. }
  destruct (growSegment_spec s t Hlast) as (Hids' & Hhd' & _ & Hheap').
  unfold Snake.wf. rewrite Hids', Hhd', Hheap', Hids. simpl.
  rewrite (lookup_app_l_Some _ _ _ _ Hsg). simpl. rewrite Hc, Hn.
  repeat split; try done.
  - rewrite app_comm_cons. apply list.NoDup_app. repeat split.
    + done.
    + intros a Ha ->%list_elem_of_singleton.
      assert (is_Some (Snake.heap s !! length (Snake.heap s))) as Hs.
      { apply wf_valid; [done|]. by rewrite Hids. }
      apply lookup_lt_is_Some in Hs. lia.
    + apply list.NoDup_singleton.
  - apply (linked_snoc _ _ _ _ t).
    + by rewrite <- Hids.
    + by apply linked_app_heap.
    + by rewrite list_lookup_middle.
    + by rewrite list_lookup_middle.
Qed.

(** Growth leaves the old targets alone and adds the tail's target. *)
Lemma targets_growSegment s t :
  Snake.wf s →
  list.last (Snake.snakeSegments s) = Some t →
  Snake.targets (Snake.growSegment s)
  = Snake.targets s ++ [Snake.tgtOf (Snake.heap s) t].
Proof.
  intros Hwf Hlast.
  destruct (growSegment_spec s t Hlast) as (Hids' & _ & _ & Hheap').
  unfold Snake.targets. rewrite Hids', Hheap', fmap_app. f_equal.
  - apply list_fmap_ext. intros i a Ha. apply tgtOf_app.
    apply wf_valid; [done|]. by eapply list_elem_of_lookup_2.
  - simpl. unfold Snake.tgtOf at 1.
    by rewrite (list_lookup_total_correct _ _ _
                  (list_lookup_middle _ [] _ _ eq_refl)).
Qed.

Lemma last_targets s t :
  list.last (Snake.snakeSegments s) = Some t →
  list.last (Snake.targets s) = Some (Snake.tgtOf (Snake.heap s) t).
Proof. intros H. unfold Snake.targets. by rewrite fmap_last, H. Qed.

(** Growing [n] times from a chain whose segments all sit on [c]. *)
Lemma grow_iter n : ∀ s c,
  Snake.wf s →
  Snake.targets s = replicate (length (Snake.snakeSegments s)) c →
  let s' := Nat.iter n Snake.growSegment s in
  Snake.wf s' ∧
  length (Snake.snakeSegments s') = n + length (Snake.snakeSegments s) ∧
  Snake.targets s' = replicate (n + length (Snake.snakeSegments s)) c ∧
  Snake.snakeHeadSegment s' = Snake.snakeHeadSegment s ∧
  Snake.movementProcessor s' = Snake.movementProcessor s ∧
  Snake.heap s' !! Snake.snakeHeadSegment s
    = Snake.heap s !! Snake.snakeHeadSegment s.
Proof.
  induction n as [|n IH]; intros s c Hwf Ht; [by simpl|].
  destruct (IH s c Hwf Ht) as (Hwf' & Hlen & Ht' & Hhd & Hmp & Hlk).
  cbv zeta. rewrite Nat.iter_succ.
  set (s1 := Nat.iter n Snake.growSegment s) in *.
  destruct (wf_inv s1 Hwf') as (rest & sg & Hids & Hsg & _).
  assert (∃ t, list.last (Snake.snakeSegments s1) = Some t) as [t Hlast].
  { rewrite Hids. destruct (list.last (Snake.snakeHeadSegment s1 :: rest)) eqn:E;
      [eauto|]. by apply last_None in E. }
  destruct (growSegment_spec s1 t Hlast) as (Hids' & Hhd' & Hmp' & Hheap').
  assert (Snake.tgtOf (Snake.heap s1) t = c) as Hc.
  { pose proof (last_targets s1 t Hlast) as Hlt. rewrite Ht' in Hlt.
    assert (Snake.tgtOf (Snake.heap s1) t ∈ replicate (n + length (Snake.snakeSegments s)) c) as Hin.
    { apply list.last_Some_elem_of. done. }
    by apply elem_of_replicate in Hin as [? _]. }
  split_and!.
  - by apply wf_growSegment.
  - rewrite Hids', length_app, Hlen. simpl. lia.
  - rewrite (targets_growSegment s1 t Hwf' Hlast), Ht', Hc.
    symmetry. apply (replicate_S_end (n + length (Snake.snakeSegments s))).
  - by rewrite Hhd'.
  - by rewrite Hmp'.
  - rewrite Hheap', <- Hlk. rewrite Hhd in Hsg.
    by rewrite (lookup_app_l_Some _ _ _ _ Hsg).
Qed.

(** [resetForStart] needs only the head object: controllable, with no
    next segment. *)
Lemma resetForStart_spec b s sg :
  Snake.heap s !! Snake.snakeHeadSegment s = Some sg →
  SnakeSegment.isControllable sg = true →
  SnakeSegment.nextSegment sg = None →
  let s' := Snake.resetForStart b s in
  Snake.wf s' ∧
  length (Snake.snakeSegments s') = 11 ∧
  Snake.targets s' = replicate 11 (Board.getCenterCell b) ∧
  Snake.snakeHeadSegment s' = Snake.snakeHeadSegment s ∧
  SnakeSegment.drawCellPos <$> Snake.heap s' !! Snake.snakeHeadSegment s
    = Some (Vector2.toDraw (Board.getCenterCell b)).
Proof.
  intros Hsg Hc Hn.
  unfold Snake.resetForStart.
  set (hd := Snake.snakeHeadSegment s) in *.
  rewrite (lookup_total_of_lookup _ _ _ Hsg).
  unfold SnakeSegment.moveToCell. rewrite Hc. simpl negb. cbv iota.
  set (sg' := SnakeSegment.mk _ _ _ _).
  set (s1 := Snake.mk _ _ _ _).
  assert (hd < length (Snake.heap s)) as Hlt.
  { apply lookup_lt_is_Some. eauto. }
  assert (Snake.heap s1 !! hd = Some sg') as Hsg1.
  { by apply list_lookup_insert_eq. }
  assert (Snake.wf s1) as Hwf1.
  { unfold Snake.wf. simpl. fold hd. rewrite list_lookup_insert_eq by done.
    simpl. rewrite Hn. repeat split; try done. apply list.NoDup_singleton. }
  assert (Snake.targets s1
          = replicate (length (Snake.snakeSegments s1)) (Board.getCenterCell b))
    as Ht1.
  { unfold Snake.targets, Snake.tgtOf. simpl.
    pose proof Hsg1 as Hsg1'. simpl in Hsg1'.
    by rewrite (lookup_total_of_lookup _ _ _ Hsg1'). }
  destruct (grow_iter 10 s1 _ Hwf1 Ht1) as (Hwf' & Hlen & Ht' & Hhd & _ & Hlk).
  cbv zeta. split_and!; try done.
  change (Snake.snakeHeadSegment s1) with hd in Hlk. by rewrite Hlk, Hsg1.
Qed.

End Growth.

(** ** Claims about growth, reset and [moveToCell] *)

Section GrowthClaims.

Implicit Types (s : Snake.t) (b : Board.t).

Lemma wf_resetForStart b s : Snake.wf s → Snake.wf (Snake.resetForStart b s).
Proof.
  intros (rest & sg & _ & Hsg & Hc & Hn & _)%wf_inv.
  by destruct (resetForStart_spec b s sg Hsg Hc Hn) as (? & _).
Qed.

(** The constructor yields a well-formed chain of eleven segments. *)
Lemma wf_new b : Snake.wf (Snake.new b).
Proof.
  unfold Snake.new.
  by destruct (resetForStart_spec b
                 (Snake.mk [SnakeSegment.new [] None true] [] 0
                    PlayerMovementProcessor.new) _ eq_refl eq_refl eq_refl)
    as (? & _).
Qed.

Lemma linked_not_controllable (h : list SnakeSegment.t) p l a :
  Snake.linked h p l → a ∈ l →
  SnakeSegment.isControllable <$> h !! a = Some false.
Proof.
  revert p. induction l as [|x l IH]; intros p; simpl.
  - intros _ Hin. by apply elem_of_nil in Hin.
  - intros (_ & Hc & Hl) Hin. apply elem_of_cons in Hin as [->|Hin]; eauto.
Qed.

(** C7. Growing a chain whose tail is [t] makes it one longer; the new
    segment is a fresh object placed last, it is not controllable, its
    [nextSegment] is [t], and its target cell and draw position are
    the target cell [t] has at that moment. *)
Theorem growSegment_appends_tail s t :
  list.last (Snake.snakeSegments s) = Some t →
  let s' := Snake.growSegment s in
  let n := length (Snake.heap s) in
  length (Snake.snakeSegments s') = S (length (Snake.snakeSegments s)) ∧
  Snake.snakeSegments s' = Snake.snakeSegments s ++ [n] ∧
  list.last (Snake.snakeSegments s') = Some n ∧
  ∃ sg, Snake.heap s' !! n = Some sg ∧
        SnakeSegment.nextSegment sg = Some t ∧
        SnakeSegment.isControllable sg = false ∧
        SnakeSegment.tgtCellPos sg = Snake.tgtOf (Snake.heap s) t ∧
        SnakeSegment.drawCellPos sg
          = Vector2.toDraw (Snake.tgtOf (Snake.heap s) t).
Proof.
  intros Hlast.
  destruct (growSegment_spec s t Hlast) as (Hids & _ & _ & Hheap).
  cbv zeta. rewrite Hids, Hheap, length_app. simpl. split_and!.
  - lia.
  - done.
  - apply last_snoc.
  - eexists. split; [by apply list_lookup_middle|]. by simpl.
Qed.

(** C4, as the code has it. After [resetForStart] the chain has eleven
    segments (the head and the ten grown ones), all on the board's
    centre cell; the head's target is the centre cell and its draw
    position is that same cell. *)
Theorem reset_builds_eleven_at_centre b s :
  Snake.wf s →
  let s' := Snake.resetForStart b s in
  let hd := Snake.snakeHeadSegment s' in
  length (Snake.snakeSegments s') = 11 ∧
  Snake.targets s' = replicate 11 (Board.getCenterCell b) ∧
  Snake.tgtOf (Snake.heap s') hd = Board.getCenterCell b ∧
  Snake.drawOf (Snake.heap s') hd = Vector2.toDraw (Board.getCenterCell b).
Proof.
  intros Hwf.
  destruct (wf_inv s Hwf) as (rest & sg & _ & Hsg & Hc & Hn & _).
  destruct (resetForStart_spec b s sg Hsg Hc Hn)
    as (Hwf' & Hlen & Ht & Hhd & Hdraw).
  cbv zeta. rewrite Hhd. split_and!; try done.
  - destruct (wf_inv _ Hwf') as (rest' & sg' & Hids' & _).
    pose proof (targets_lookup (Snake.resetForStart b s) 0) as Hl.
    rewrite Hids', Ht, Hhd in Hl. simpl in Hl.
    specialize (Hl ltac:(lia)). by injection Hl.
  - unfold Snake.drawOf. rewrite list_lookup_total_alt.
    destruct (Snake.heap (Snake.resetForStart b s) !! Snake.snakeHeadSegment s);
      [by injection Hdraw | discriminate].
Qed.

(** C10. [moveToCell] returns a non-controllable segment as it is;
    segments are constructed non-controllable unless asked otherwise;
    in a well-formed chain every segment after the head is
    non-controllable; and on a controllable segment [moveToCell] sets
    the target cell. *)
Theorem moveToCell_only_moves_controllable :
  (∀ sg c instant,
     SnakeSegment.isControllable sg = false →
     SnakeSegment.moveToCell c instant sg = sg) ∧
  (∀ h segment,
     SnakeSegment.isControllable (SnakeSegment.new h segment false) = false) ∧
  (∀ s i a,
     Snake.wf s → Snake.snakeSegments s !! S i = Some a →
     SnakeSegment.isControllable <$> Snake.heap s !! a = Some false) ∧
  (∀ sg c instant,
     SnakeSegment.isControllable sg = true →
     SnakeSegment.tgtCellPos (SnakeSegment.moveToCell c instant sg) = c).
Proof.
  split_and!.
  - intros sg c instant H. unfold SnakeSegment.moveToCell. by rewrite H.
  - done.
  - intros s i a (rest & sg & Hids & _ & _ & _ & _ & Hl)%wf_inv Ha.
    rewrite Hids in Ha. simpl in Ha.
    eapply linked_not_controllable; [done|]. by eapply list_elem_of_lookup_2.
  - intros sg c instant H. unfold SnakeSegment.moveToCell. by rewrite H.
Qed.

End GrowthClaims.

Lemma growSegment_appends_tail_witness :
  list.last (Snake.snakeSegments Scenario.fresh) = Some 10 ∧
  length (Snake.snakeSegments (Snake.growSegment Scenario.fresh)) = 12.
Proof.
  split; [reflexivity|].
  exact (proj1 (growSegment_appends_tail Scenario.fresh 10 eq_refl)).
Defined.

(** C4 as stated does not hold: after a reset of the default game the
    chain does not have ten segments. *)
Lemma reset_does_not_build_ten :
  length (Snake.snakeSegments (Snake.resetForStart Scenario.board9 Scenario.fresh))
  ≠ 10.
Proof. vm_compute. discriminate. Qed.

Lemma reset_builds_eleven_at_centre_witness :
  Snake.wf Scenario.fresh ∧
  length (Snake.snakeSegments (Snake.resetForStart Scenario.board9 Scenario.fresh))
  = 11.
Proof.
  assert (Snake.wf Scenario.fresh) as Hwf by by_evaluation.
  split; [exact Hwf|].
  exact (proj1 (reset_builds_eleven_at_centre Scenario.board9 Scenario.fresh Hwf)).
Defined.

Lemma moveToCell_only_moves_controllable_witness :
  let sg := SnakeSegment.new [] None false in
  SnakeSegment.isControllable sg = false ∧
  SnakeSegment.moveToCell (Vector2.mk 3%Z 5%Z) true sg = sg.
Proof.
  split; [reflexivity|].
  exact (proj1 moveToCell_only_moves_controllable
           (SnakeSegment.new [] None false) (Vector2.mk 3%Z 5%Z) true eq_refl).
Defined.

(* ===================================================================== *)
(** ** The movement processor *)

Section Movement.

Implicit Types (mp : PlayerMovementProcessor.t) (d : Direction).

Lemma opposite_ne d : d ≠ PlayerMovementProcessor.opposite d.
Proof. by destruct d. Qed.

Lemma onKeyDown_cur k mp :
  PlayerMovementProcessor.curDirection (PlayerMovementProcessor.onKeyDown k mp)
  = PlayerMovementProcessor.curDirection mp.
Proof.
  unfold PlayerMovementProcessor.onKeyDown.
  destruct (PlayerMovementProcessor.keyDirection k); [|done].
  by destruct (PlayerMovementProcessor.isLegal mp d).
Qed.

Lemma onKeyDown_legal k mp :
  PlayerMovementProcessor.pendingLegal mp →
  PlayerMovementProcessor.pendingLegal (PlayerMovementProcessor.onKeyDown k mp).
Proof.
  intros Hl. unfold PlayerMovementProcessor.onKeyDown.
  destruct (PlayerMovementProcessor.keyDirection k) as [d|]; [|done].
  destruct (PlayerMovementProcessor.isLegal mp d) eqn:E; [|done].
  intros c p Hc Hp. simpl in Hc, Hp. injection Hp as <-.
  unfold PlayerMovementProcessor.isLegal in E. rewrite Hc in E.
  by apply bool_decide_eq_true in E.
Qed.

(** An opposite-direction press changes nothing. *)
Lemma onKeyDown_opposite_dropped mp c :
  PlayerMovementProcessor.curDirection mp = Some c →
  PlayerMovementProcessor.onKeyDown
    (ArrowKey (PlayerMovementProcessor.opposite c)) mp = mp.
Proof.
  intros Hc. unfold PlayerMovementProcessor.onKeyDown. simpl.
  unfold PlayerMovementProcessor.isLegal. rewrite Hc.
  by rewrite bool_decide_eq_false_2 by (intros H; by apply H).
Qed.

Lemma nextDirection_legal mp c :
  PlayerMovementProcessor.pendingLegal mp →
  PlayerMovementProcessor.curDirection mp = Some c →
  PlayerMovementProcessor.nextDirection mp ≠ PlayerMovementProcessor.opposite c.
Proof.
  intros Hl Hc. unfold PlayerMovementProcessor.nextDirection.
  destruct (PlayerMovementProcessor.pendingDirection mp) as [p|] eqn:Hp.
  - by apply Hl.
  - rewrite Hc. simpl. apply opposite_ne.
Qed.

Lemma run_noReversal inputs : ∀ mp,
  PlayerMovementProcessor.pendingLegal mp →
  PlayerMovementProcessor.noReversal
    (PlayerMovementProcessor.curDirection mp)
    (fst (PlayerMovementProcessor.run inputs mp)) ∧
  PlayerMovementProcessor.pendingLegal
    (snd (PlayerMovementProcessor.run inputs mp)).
Proof.
  induction inputs as [|[k|] rest IH]; intros mp Hl; simpl.
  - done.
  - rewrite <- (onKeyDown_cur k mp). apply IH. by apply onKeyDown_legal.
  - set (mp1 := PlayerMovementProcessor.mk _ _).
    destruct (IH mp1) as [Hr Hl'].
    { intros c p _ Hp. discriminate Hp. }
    destruct (PlayerMovementProcessor.run rest mp1) as [ds mp'] eqn:E.
    simpl in *. split_and!; try done.
    intros c Hc. by apply nextDirection_legal.
Qed.

Lemma noReversal_lookup ds : ∀ prev i a b,
  PlayerMovementProcessor.noReversal prev ds →
  ds !! i = Some a → ds !! S i = Some b →
  b ≠ PlayerMovementProcessor.opposite a.
Proof.
  induction ds as [|d ds IH]; intros prev i a b Hr Ha Hb; [done|].
  simpl in Hr. destruct Hr as [_ Hr]. destruct i as [|i].
  - simpl in Ha, Hb. injection Ha as ->.
    destruct ds as [|d' ds]; [done|]. simpl in Hb. injection Hb as ->.
    simpl in Hr. destruct Hr as [Hr _]. by apply Hr.
  - by apply (IH (Some d) i a b).
Qed.

(** C9. Whatever the key presses and ticks since the processor was
    created, no committed direction is the opposite of the one
    committed just before it, and pressing the opposite of the
    committed direction leaves the processor as it was: nothing is
    queued. *)
Theorem committed_direction_never_reverses
    (inputs : list PlayerMovementProcessor.Input) :
  let ds := fst (PlayerMovementProcessor.run inputs PlayerMovementProcessor.new) in
  let mp := snd (PlayerMovementProcessor.run inputs PlayerMovementProcessor.new) in
  (∀ i a b, ds !! i = Some a → ds !! S i = Some b →
            b ≠ PlayerMovementProcessor.opposite a) ∧
  (∀ c, PlayerMovementProcessor.curDirection mp = Some c →
        PlayerMovementProcessor.onKeyDown
          (ArrowKey (PlayerMovementProcessor.opposite c)) mp = mp).
Proof.
  cbv zeta. split.
  - intros i a b.
    destruct (run_noReversal inputs PlayerMovementProcessor.new) as [Hr _].
    { intros c p Hc. discriminate Hc. }
    by eapply noReversal_lookup.
  - intros c. apply onKeyDown_opposite_dropped.
Qed.

End Movement.

Lemma committed_direction_never_reverses_witness :
  fst (PlayerMovementProcessor.run
         [PlayerMovementProcessor.KeyDown (ArrowKey Right);
          PlayerMovementProcessor.Tick;
          PlayerMovementProcessor.KeyDown (ArrowKey Left);
          PlayerMovementProcessor.Tick]
         PlayerMovementProcessor.new) = [Right; Right] ∧
  Right ≠ PlayerMovementProcessor.opposite Right.
Proof.
  split; [reflexivity|].
  exact (proj1 (committed_direction_never_reverses
                  [PlayerMovementProcessor.KeyDown (ArrowKey Right);
                   PlayerMovementProcessor.Tick;
                   PlayerMovementProcessor.KeyDown (ArrowKey Left);
                   PlayerMovementProcessor.Tick])
           0 Right Right eq_refl eq_refl).
Defined.

(* ===================================================================== *)
(** ** Draw-position smoothing *)

Section Smoothing.

Local Open Scope Qc_scope.







(** Updating each object of a duplicate-free list once. *)
Lemma foldl_insert_each (f : SnakeSegment.t → SnakeSegment.t) (l : list addr) :
  ∀ h : list SnakeSegment.t,
  NoDup l →
  let h' := foldl (λ h a, <[a := f (h !!! a)]> h) h l in
  (∀ a, a ∈ l → h' !! a = f <$> h !! a) ∧
  (∀ a, a ∉ l → h' !! a = h !! a).
Proof.
  induction l as [|b l IH]; intros h Hnd; cbv zeta.
  - split; [|done]. intros a Ha. by apply elem_of_nil in Ha.
  - apply list.NoDup_cons in Hnd as [Hb Hnd]. simpl.
    destruct (IH (<[b := f (h !!! b)]> h) Hnd) as [Hin Hout].
    assert (<[b := f (h !!! b)]> h !! b = f <$> h !! b) as Hb'.
    { destruct (h !! b) as [sg|] eqn:E.
      - rewrite (list_lookup_total_correct _ _ _ E).
        apply list_lookup_insert_eq. apply lookup_lt_is_Some. eauto.
      - rewrite list_insert_ge by (by apply lookup_ge_None). by rewrite E. }
    split.
    + intros a [->|Ha]%elem_of_cons.
      * by rewrite Hout.
      * rewrite (Hin a Ha). rewrite list_lookup_insert_ne; [done|].
        intros ->. by apply Hb.
    + intros a [Hne Ha]%not_elem_of_cons.
      rewrite (Hout a Ha). by rewrite list_lookup_insert_ne.
Qed.

(** A frame applies the smoothing step, with twenty times the elapsed
    time, to every segment of the chain and to nothing else. *)
Lemma draw_smooths_every_segment timeDelta s :
  NoDup (Snake.snakeSegments s) →
  Snake.snakeSegments (Snake.draw timeDelta s) = Snake.snakeSegments s ∧
  (∀ a, a ∈ Snake.snakeSegments s →
     Snake.heap (Snake.draw timeDelta s) !! a
     = SnakeSegment.moveDrawPosTowardsTgtPos
         (JsNumber.mul timeDelta (JsNumber.ofZ 20)) <$> Snake.heap s !! a) ∧
  (∀ a, a ∉ Snake.snakeSegments s →
     Snake.heap (Snake.draw timeDelta s) !! a = Snake.heap s !! a).
Proof.
  intros Hnd. split; [done|].
  exact (foldl_insert_each _ (Snake.snakeSegments s) (Snake.heap s) Hnd).
Qed.




End Smoothing.


(* ===================================================================== *)
(** ** The controller: food eaten, victory *)

Section Controller.

Implicit Types (g : GameController.t) (b : Board.t) (c : Vector2.t Z).

Lemma elem_of_allCells b c :
  c ∈ Board.allCells b ↔ Board.cellIsInsideBoard b c = true.
Proof.
  unfold Board.allCells, Board.cellIsInsideBoard.
  rewrite !andb_true_iff, !Z.leb_le, !Z.ltb_lt, list_elem_of_bind.
  destruct c as [cx cy]. simpl. split.
  - intros (i & Hc & Hi). apply list_elem_of_fmap in Hc as (j & Hc & Hj).
    injection Hc as -> ->. apply elem_of_seq in Hi, Hj. lia.
  - intros (((? & ?) & ?) & ?). exists (Z.to_nat cx). split.
    + apply list_elem_of_fmap. exists (Z.to_nat cy). split.
      * f_equal; lia.
      * apply elem_of_seq. lia.
    + apply elem_of_seq. lia.
Qed.

(** The unoccupied cells are the cells of the board that hold neither a
    segment nor the food. *)
Lemma elem_of_unoccupiedCells g c :
  c ∈ GameController.unoccupiedCells g ↔
  Board.cellIsInsideBoard (GameController.board g) c = true ∧
  (c ∉ Snake.targets (GameController.player g)) ∧
  FoodDispenser.prey (GameController.preyDispenser g) ≠ Some c.
Proof.
  unfold GameController.unoccupiedCells, Board.getUnoccupiedCells.
  rewrite list_elem_of_filter, elem_of_allCells. tauto.
Qed.

Lemma spawnNewPrey_some rnd (cells : list (Vector2.t Z)) d :
  cells ≠ [] →
  ∃ c, c ∈ cells ∧
       FoodDispenser.spawnNewPrey rnd cells d = (FoodDispenser.mk (Some c), Some c).
Proof.
  intros Hne. unfold FoodDispenser.spawnNewPrey.
  assert (rnd `mod` length cells < length cells) as Hlt.
  { apply Nat.mod_upper_bound. by destruct cells. }
  apply lookup_lt_is_Some in Hlt as [c Hc]. rewrite Hc.
  exists c. split; [|done]. by eapply list_elem_of_lookup_2.
Qed.

Lemma spawnPrey_gameState rnd g :
  GameController.gameState (GameController.spawnPrey rnd g)
  = GameController.gameState g.
Proof.
  unfold GameController.spawnPrey.
  by destruct (FoodDispenser.spawnNewPrey _ _ _).
Qed.

(** [onPreyEaten], by whether a cell is left. *)
Lemma onPreyEaten_spec rnd g :
  let g' := GameController.onPreyEaten rnd g in
  GameController.score g' = (GameController.score g + 1)%Z ∧
  GameController.player g' = GameController.player g ∧
  (GameController.unoccupiedCells g ≠ [] →
     GameController.gameState g' = GameController.gameState g ∧
     ∃ c, c ∈ GameController.unoccupiedCells g ∧
          FoodDispenser.prey (GameController.preyDispenser g') = Some c) ∧
  (GameController.unoccupiedCells g = [] →
     GameController.gameState g' = Victorious ∧
     GameController.preyDispenser g' = GameController.preyDispenser g).
Proof.
  cbv zeta. unfold GameController.onPreyEaten.
  change (GameController.unoccupiedCells (GameController.mk _ _ _ _ _ _))
    with (GameController.unoccupiedCells g).
  destruct (decide (0 < length (GameController.unoccupiedCells g))) as [Hlt|Hge].
  - unfold GameController.spawnPrey.
    change (GameController.unoccupiedCells (GameController.mk _ _ _ _ _ _))
      with (GameController.unoccupiedCells g).
    assert (GameController.unoccupiedCells g ≠ []) as Hne.
    { intros E. rewrite E in Hlt. simpl in Hlt. lia. }
    destruct (spawnNewPrey_some rnd _ (GameController.preyDispenser g) Hne)
      as (c & Hc & Hs).
    simpl. rewrite Hs. simpl. split_and!; try done; eauto.
  - assert (GameController.unoccupiedCells g = []) as E.
    { destruct (GameController.unoccupiedCells g); [done|]. simpl in Hge. lia. }
    simpl. split_and!; try done.
Qed.

(** Every handler keeps the player's chain well formed, and the
    constructor builds one that is. *)
Lemma wf_spawnPrey rnd g :
  GameController.player (GameController.spawnPrey rnd g) = GameController.player g.
Proof.
  unfold GameController.spawnPrey.
  by destruct (FoodDispenser.spawnNewPrey _ _ _).
Qed.

Lemma wf_controller_new rnd : Snake.wf (GameController.player (GameController.new rnd)).
Proof.
  unfold GameController.new, GameController.resetGame.
  rewrite wf_spawnPrey. simpl. apply wf_resetForStart, wf_new.
Qed.

Lemma wf_step rnd ev g :
  Snake.wf (GameController.player g) →
  Snake.wf (GameController.player (GameController.step rnd ev g)).
Proof.
  intros Hwf. destruct ev as [k| |]; simpl.
  - unfold GameController.onKeyDown.
    destruct (GameController.gameState g).
    + by destruct (GameController.isArrowKey k).
    + done.
    + destruct k; try done.
      unfold GameController.goToMainMenu, GameController.resetGame.
      rewrite wf_spawnPrey. simpl. by apply wf_resetForStart.
    + destruct k; try done.
      unfold GameController.goToMainMenu, GameController.resetGame.
      rewrite wf_spawnPrey. simpl. by apply wf_resetForStart.
  - destruct (GameController.gameIntervalActive g); [|done].
    unfold GameController.doGameUpdate.
    pose proof (wf_update (GameController.board g) _ Hwf) as Hu.
    destruct (Snake.update _ _) as [p [|]]; exact Hu.
  - unfold GameController.onPreyEaten.
    destruct (decide _); [|done]. by rewrite wf_spawnPrey.
Qed.

Lemma onKeyDown_not_victorious rnd k g :
  GameController.gameState g ≠ Victorious →
  GameController.gameState (GameController.onKeyDown rnd k g) ≠ Victorious.
Proof.
  intros Hnv. unfold GameController.onKeyDown.
  destruct (GameController.gameState g) eqn:E.
  - destruct (GameController.isArrowKey k); [done|]. by rewrite E.
  - simpl. by rewrite E.
  - destruct k; rewrite ?E; try done.
    unfold GameController.goToMainMenu, GameController.resetGame.
    by rewrite spawnPrey_gameState.
  - done.
Qed.

Lemma timer_not_victorious g :
  GameController.gameState g ≠ Victorious →
  GameController.gameState
    (if GameController.gameIntervalActive g
     then GameController.doGameUpdate g else g) ≠ Victorious.
Proof.
  intros Hnv. destruct (GameController.gameIntervalActive g); [|done].
  unfold GameController.doGameUpdate.
  by destruct (Snake.update _ _) as [p [|]].
Qed.

(** C5. From a state that is not yet Victorious, an event makes the
    game Victorious exactly when it is a food-eaten event that finds
    no unoccupied cell; a food-eaten event that finds one leaves the
    game state as it was (Playing stays Playing), raises the score by
    one and spawns a food on one of the unoccupied cells. *)
Theorem victorious_iff_no_cell_left rnd ev g :
  GameController.gameState g ≠ Victorious →
  (GameController.gameState (GameController.step rnd ev g) = Victorious ↔
   ev = GameController.PreyEaten ∧ GameController.unoccupiedCells g = []) ∧
  (ev = GameController.PreyEaten →
   GameController.unoccupiedCells g ≠ [] →
   GameController.gameState (GameController.step rnd ev g)
     = GameController.gameState g ∧
   ∃ c, c ∈ GameController.unoccupiedCells g ∧
        FoodDispenser.prey
          (GameController.preyDispenser (GameController.step rnd ev g))
        = Some c).
Proof.
  intros Hnv. split.
  - destruct ev as [k| |]; simpl.
    + split; [|by intros [? _]]. intros Hv. exfalso.
      by apply (onKeyDown_not_victorious rnd k g).
    + split; [|by intros [? _]]. intros Hv. exfalso.
      by apply (timer_not_victorious g).
    + destruct (onPreyEaten_spec rnd g) as (_ & _ & Hsome & Hnone).
      split.
      * intros Hv. split; [done|].
        destruct (GameController.unoccupiedCells g) eqn:E; [done|].
        destruct Hsome as [Hs _]; [done|]. congruence.
      * intros [_ E]. by apply Hnone.
  - intros -> Hne. simpl.
    destruct (onPreyEaten_spec rnd g) as (_ & _ & Hsome & _). by apply Hsome.
Qed.

(** Growth puts the new segment on a cell the chain already holds, so
    it takes no cell away from the unoccupied ones. *)
Lemma growth_keeps_unoccupied g :
  Snake.wf (GameController.player g) →
  GameController.unoccupiedCells
    (GameController.setPlayer (Snake.growSegment (GameController.player g)) g)
  = GameController.unoccupiedCells g.
Proof.
  intros Hwf. unfold GameController.unoccupiedCells, Board.getUnoccupiedCells.
  simpl.
  destruct (wf_inv _ Hwf) as (rest & sg & Hids & _).
  assert (∃ t, list.last (Snake.snakeSegments (GameController.player g)) = Some t)
    as [t Hlast].
  { rewrite Hids.
    destruct (list.last (Snake.snakeHeadSegment (GameController.player g) :: rest))
      eqn:E; [eauto|]. by apply last_None in E. }
  rewrite (targets_growSegment _ t Hwf Hlast).
  apply list_filter_iff. intros c.
  rewrite not_elem_of_app, list_elem_of_singleton.
  pose proof (last_targets _ t Hlast) as Hl.
  apply list.last_Some_elem_of in Hl. split; [tauto|].
  intros [Hn ?]. split_and!; try done. by intros ->.
Qed.

End Controller.

Lemma victorious_iff_no_cell_left_witness :
  GameController.gameState Scenario.fullBoard ≠ Victorious ∧
  GameController.unoccupiedCells Scenario.fullBoard = [] ∧
  GameController.gameState
    (GameController.step 0 GameController.PreyEaten Scenario.fullBoard)
  = Victorious.
Proof.
  assert (GameController.gameState Scenario.fullBoard ≠ Victorious) as Hnv
    by discriminate.
  split; [exact Hnv|]. split; [by vm_compute|].
  apply (proj1 (victorious_iff_no_cell_left 0 GameController.PreyEaten
                  Scenario.fullBoard Hnv)).
  split; [reflexivity | by vm_compute].
Defined.

(** C6, on the code.  The food is at (4,3) and the head, at (4,4), moves
    up onto it: after the tick the head's target is the food's cell, and
    yet the chain still has eleven segments, the score is still zero and
    the food is where it was. *)
Theorem tick_onto_food_eats_nothing :
  let g := Scenario.foodAhead in
  let g' := GameController.step 0 GameController.TimerFired g in
  GameController.gameState g = Playing ∧
  FoodDispenser.prey (GameController.preyDispenser g) = Some (Vector2.mk 4%Z 3%Z) ∧
  head (Snake.targets (GameController.player g)) = Some (Vector2.mk 4%Z 4%Z) ∧
  head (Snake.targets (GameController.player g')) = Some (Vector2.mk 4%Z 3%Z) ∧
  snd (Snake.update (GameController.board g) (GameController.player g)) = false ∧
  length (Snake.snakeSegments (GameController.player g)) = 11 ∧
  length (Snake.snakeSegments (GameController.player g')) = 11 ∧
  GameController.score g' = GameController.score g ∧
  GameController.preyDispenser g' = GameController.preyDispenser g.
Proof. by vm_compute. Qed.

(* ===================================================================== *)
(** ** More about the tick *)

Section TickShape.

Implicit Types (s : Snake.t) (b : Board.t).

Lemma targets_length s :
  length (Snake.targets s) = length (Snake.snakeSegments s).
Proof. unfold Snake.targets. apply length_fmap. Qed.

Lemma head_target s :
  Snake.wf s →
  Snake.targets s !! 0
  = Some (Snake.tgtOf (Snake.heap s) (Snake.snakeHeadSegment s)).
Proof.
  intros (rest & sg & Hids & _)%wf_inv.
  rewrite targets_lookup by (rewrite Hids; simpl; lia). by rewrite Hids.
Qed.

(** The tick as a list operation: the candidate cell is pushed at the
    front and the last cell is dropped. *)
Lemma targets_update b s :
  Snake.wf s →
  Snake.targets (fst (Snake.update b s))
  = Snake.candidate s
    :: take (length (Snake.snakeSegments s) - 1) (Snake.targets s).
Proof.
  intros Hwf.
  destruct (update_chain b s Hwf) as (Hids & Hhd & Hbody & Hhead).
  pose proof (wf_update b s Hwf) as Hwf'.
  destruct (wf_inv s Hwf) as (rest & sg & Hs & _).
  apply list_eq. intros [|i].
  - by rewrite (head_target _ Hwf'), Hhd, Hhead.
  - assert (∀ (x : Vector2.t Z) l j, (x :: l) !! S j = l !! j) as -> by done.
    destruct (decide (S i < length (Snake.snakeSegments s))) as [Hlt|Hge].
    + rewrite lookup_take_lt by lia.
      rewrite (targets_lookup (fst (Snake.update b s)) (S i))
        by (rewrite Hids; lia).
      rewrite (targets_lookup s i) by lia. f_equal. rewrite Hids.
      apply (Hbody i); apply list_lookup_lookup_total_lt; lia.
    + rewrite lookup_take_ge by lia. apply lookup_ge_None.
      rewrite targets_length, Hids. lia.
Qed.

Lemma candidate_not_in_front b s :
  Snake.wf s →
  snd (Snake.update b s) = false →
  Snake.candidate s
    ∉ take (length (Snake.snakeSegments s) - 1) (Snake.targets s).
Proof.
  intros Hwf Hd (i & Hi & Hlt)%elem_of_take.
  rewrite update_snd in Hd. apply orb_false_iff in Hd as [_ Hd].
  destruct i as [|i].
  - rewrite (head_target s Hwf) in Hi. injection Hi as Hi.
    by apply (add_vector_ne _ _ (eq_sym Hi)).
  - assert (Snake.cellIsInsidePlayer s (Snake.candidate s) = true) as E.
    { apply cellIsInsidePlayer_spec. exists (S i). split; [lia|done]. }
    congruence.
Qed.

End TickShape.

(** X1. A tick that does not signal death keeps the snake legal: if the
    segments' cells were on the board and pairwise distinct before it,
    they are on the board and pairwise distinct after it. *)
Theorem safe_tick_keeps_cells_distinct_and_on_board
    (b : Board.t) (s : Snake.t) :
  Snake.wf s →
  NoDup (Snake.targets s) →
  Forall (λ c, Board.cellIsInsideBoard b c = true) (Snake.targets s) →
  snd (Snake.update b s) = false →
  NoDup (Snake.targets (fst (Snake.update b s))) ∧
  Forall (λ c, Board.cellIsInsideBoard b c = true)
    (Snake.targets (fst (Snake.update b s))).
Proof.
  intros Hwf Hnd Hin Hd. rewrite (targets_update b s Hwf). split.
  - apply list.NoDup_cons. split; [by apply (candidate_not_in_front b)|].
    eapply sublist_NoDup; [exact Hnd | apply sublist_take].
  - constructor; [|by apply Forall_take].
    rewrite update_snd in Hd. apply orb_false_iff in Hd as [Hd _].
    by apply negb_false_iff in Hd.
Qed.

(** X2. A tick that signals death because the candidate cell is held by
    a body segment leaves two segments on one cell. *)
Theorem self_collision_tick_overlaps (b : Board.t) (s : Snake.t) :
  Snake.wf s →
  Snake.cellIsInsidePlayer s (Snake.candidate s) = true →
  snd (Snake.update b s) = true ∧
  ¬ NoDup (Snake.targets (fst (Snake.update b s))).
Proof.
  intros Hwf Hc. split.
  { rewrite update_snd, Hc. apply orb_true_r. }
  rewrite (targets_update b s Hwf). intros [Hn _]%list.NoDup_cons.
  apply Hn. apply cellIsInsidePlayer_spec in Hc as (i & Hi & Ht).
  apply elem_of_take. exists i. split; [done|lia].
Qed.

(** X3. Ticks compose into a shift: after [k] ticks the segment at
    position [i + k] is on the cell the segment at position [i] had at
    the start, the chain being the same objects throughout. *)
Theorem ticks_shift_the_chain (b : Board.t) (k : nat) (s : Snake.t) (i : nat) :
  Snake.wf s →
  i + k < length (Snake.snakeSegments s) →
  let s' := Nat.iter k (λ s, fst (Snake.update b s)) s in
  Snake.wf s' ∧
  Snake.snakeSegments s' = Snake.snakeSegments s ∧
  Snake.targets s' !! (i + k) = Snake.targets s !! i.
Proof.
  intros Hwf. cbv zeta. revert i. induction k as [|k IH]; intros i Hi.
  - rewrite Nat.add_0_r. by simpl.
  - rewrite Nat.iter_succ.
    destruct (IH (S i) ltac:(lia)) as (Hwf' & Hids & Ht).
    set (s1 := Nat.iter k _ s) in *.
    destruct (update_chain b s1 Hwf') as (Hids' & _).
    split_and!.
    + by apply wf_update.
    + by rewrite Hids'.
    + rewrite (targets_update b s1 Hwf'), Hids.
      replace (i + S k) with (S (i + k)) by lia.
      assert (∀ (x : Vector2.t Z) l j, (x :: l) !! S j = l !! j) as -> by done.
      rewrite lookup_take_lt by lia.
      destruct (IH i ltac:(lia)) as (_ & _ & <-). done.
Qed.

(** X4. A chain of at most two segments, the empty one included, never
    reports a self-collision: the loop has no position to look at, so
    such a snake dies exactly when the candidate cell is off the
    board. *)
Theorem short_snake_never_self_collides (b : Board.t) (s : Snake.t) :
  length (Snake.snakeSegments s) ≤ 2 →
  (∀ c, Snake.cellIsInsidePlayer s c = false) ∧
  snd (Snake.update b s) = negb (Board.cellIsInsideBoard b (Snake.candidate s)).
Proof.
  intros Hlen.
  assert (∀ c, Snake.cellIsInsidePlayer s c = false) as Hc.
  { intros c. unfold Snake.cellIsInsidePlayer.
    by replace (length (Snake.snakeSegments s) - 2) with 0 by lia. }
  split; [done|]. rewrite update_snd, Hc. apply orb_false_r.
Qed.

(* ===================================================================== *)
(** ** Ticks, frames and growth leave each other's state alone *)

Section Separation.

Implicit Types (s : Snake.t) (b : Board.t) (h : list SnakeSegment.t).

(** X5. A tick writes target cells and nothing else: the chain stays
    well formed, no object is allocated, every object keeps its
    [nextSegment], its [isControllable] flag and its draw position, and
    the objects that are not in the chain are not touched at all. *)
Theorem tick_writes_only_target_cells b s :
  Snake.wf s →
  let s' := fst (Snake.update b s) in
  Snake.wf s' ∧
  length (Snake.heap s') = length (Snake.heap s) ∧
  (∀ a, SnakeSegment.nextSegment <$> Snake.heap s' !! a
          = SnakeSegment.nextSegment <$> Snake.heap s !! a ∧
        SnakeSegment.isControllable <$> Snake.heap s' !! a
          = SnakeSegment.isControllable <$> Snake.heap s !! a ∧
        SnakeSegment.drawCellPos <$> Snake.heap s' !! a
          = SnakeSegment.drawCellPos <$> Snake.heap s !! a) ∧
  (∀ a, a ∉ Snake.snakeSegments s → Snake.heap s' !! a = Snake.heap s !! a).
Proof.
  intros Hwf. cbv zeta. split; [by apply wf_update|].
  destruct (wf_inv s Hwf) as (rest & sg & Hids & _).
  rewrite update_fst.
  set (s1 := Snake.mk _ _ _ _).
  destruct (moveInDirection_spec
              (fst (PlayerMovementProcessor.updateDirection
                      (Snake.movementProcessor s))) s1 Hwf)
    as (_ & _ & _ & _ & _ & Hn & Hc & Hd).
  split_and!.
  - unfold Snake.moveInDirection. simpl.
    by rewrite length_insert, followAll_length.
  - intros a. by rewrite Hn, Hc, Hd.
  - intros a Ha. unfold Snake.moveInDirection. simpl.
    rewrite list_lookup_insert_ne.
    + by apply followAll_frame.
    + intros <-. apply Ha. rewrite Hids. apply elem_of_cons. by left.
Qed.

(** The smoothing pass over any list of objects leaves their target
    cells, links and flags as they were. *)
Lemma smoothing_pass_fields timeDelta (l : list addr) : ∀ h a,
  let h' :=
    foldl (λ h a,
             <[a := SnakeSegment.moveDrawPosTowardsTgtPos timeDelta (h !!! a)]> h)
          h l in
  SnakeSegment.tgtCellPos <$> h' !! a = SnakeSegment.tgtCellPos <$> h !! a ∧
  SnakeSegment.nextSegment <$> h' !! a = SnakeSegment.nextSegment <$> h !! a ∧
  SnakeSegment.isControllable <$> h' !! a
    = SnakeSegment.isControllable <$> h !! a.
Proof.
  induction l as [|x l IH]; intros h a; cbv zeta; [done|]. simpl.
  destruct (IH (<[x := SnakeSegment.moveDrawPosTowardsTgtPos timeDelta (h !!! x)]> h) a)
    as (-> & -> & ->).
  destruct (decide (x = a)) as [->|Hne].
  - destruct (h !! a) as [sg|] eqn:E.
    + rewrite (list_lookup_total_correct _ _ _ E).
      rewrite list_lookup_insert_eq by (apply lookup_lt_is_Some; eauto).
      done.
    + rewrite list_insert_ge by (by apply lookup_ge_None). by rewrite E.
  - by rewrite list_lookup_insert_ne.
Qed.

Lemma wf_draw timeDelta s : Snake.wf s → Snake.wf (Snake.draw timeDelta s).
Proof.
  intros (H1 & H2 & H3 & H4 & H5). unfold Snake.wf, Snake.draw. simpl.
  pose proof (smoothing_pass_fields
                (JsNumber.mul timeDelta (JsNumber.ofZ 20))
                (Snake.snakeSegments s) (Snake.heap s)) as Hf. cbv zeta in Hf.
  destruct (Hf (Snake.snakeHeadSegment s)) as (_ & -> & ->).
  split_and!; try done.
  eapply linked_ext; [| |exact H5]; intros a; by destruct (Hf a) as (_ & ? & ?).
Qed.

Lemma smoothing_pass_length timeDelta (l : list addr) : ∀ h,
  length
    (foldl (λ h a,
              <[a := SnakeSegment.moveDrawPosTowardsTgtPos timeDelta (h !!! a)]> h)
           h l)
  = length h.
Proof.
  induction l as [|x l IH]; intros h; [done|].
  cbn [foldl]. rewrite IH. apply length_insert.
Qed.

(** X6. Drawing a frame keeps the chain: it holds the same segment
    objects in the same order, no object is allocated, every object
    keeps its [nextSegment] and its [isControllable] flag, the chain
    stays well formed, and the objects that are not in the chain are not
    touched at all. *)
Theorem frame_keeps_the_chain timeDelta s :
  Snake.wf s →
  let s' := Snake.draw timeDelta s in
  Snake.wf s' ∧
  Snake.snakeSegments s' = Snake.snakeSegments s ∧
  Snake.snakeHeadSegment s' = Snake.snakeHeadSegment s ∧
  length (Snake.heap s') = length (Snake.heap s) ∧
  (∀ a, SnakeSegment.nextSegment <$> Snake.heap s' !! a
          = SnakeSegment.nextSegment <$> Snake.heap s !! a ∧
        SnakeSegment.isControllable <$> Snake.heap s' !! a
          = SnakeSegment.isControllable <$> Snake.heap s !! a) ∧
  (∀ a, a ∉ Snake.snakeSegments s → Snake.heap s' !! a = Snake.heap s !! a).
Proof.
  intros Hwf. cbv zeta. split; [by apply wf_draw|].
  pose proof (smoothing_pass_fields
                (JsNumber.mul timeDelta (JsNumber.ofZ 20))
                (Snake.snakeSegments s) (Snake.heap s)) as Hf. cbv zeta in Hf.
  destruct Hwf as (_ & Hnd & _).
  destruct (draw_smooths_every_segment timeDelta s Hnd) as (_ & _ & Hout).
  split_and!; try done.
  - apply smoothing_pass_length.
  - intros a. by destruct (Hf a) as (_ & ? & ?).
Qed.

(** X7. The first tick after a reset never kills, whatever direction is
    committed, on any board at least three cells wide: all segments sit
    on the centre cell and the head steps onto a neighbour of it. *)
Theorem first_tick_after_reset_is_safe b s :
  Snake.wf s →
  (3 ≤ Board.numCellsWide b)%Z →
  snd (Snake.update b (Snake.resetForStart b s)) = false.
Proof.
  intros Hwf HN.
  destruct (wf_inv s Hwf) as (rest & sg & _ & Hsg & Hc & Hn & _).
  destruct (resetForStart_spec b s sg Hsg Hc Hn) as (Hwf' & Hlen & Ht & _).
  set (s' := Snake.resetForStart b s) in *.
  assert (Snake.tgtOf (Snake.heap s') (Snake.snakeHeadSegment s')
          = Board.getCenterCell b) as Hhd.
  { pose proof (head_target s' Hwf') as H0. rewrite Ht in H0. simpl in H0.
    by injection H0. }
  rewrite update_snd. apply orb_false_iff. split.
  - apply negb_false_iff. unfold Snake.candidate. rewrite Hhd.
    unfold PlayerMovementProcessor.updateDirection.
    unfold Board.cellIsInsideBoard, Board.getCenterCell.
    rewrite !andb_true_iff, !Z.leb_le, !Z.ltb_lt.
    pose proof (Z.mul_div_le (Board.numCellsWide b) 2 ltac:(lia)).
    pose proof (Z.mul_succ_div_gt (Board.numCellsWide b) 2 ltac:(lia)).
    destruct (PlayerMovementProcessor.nextDirection (Snake.movementProcessor s'));
      cbn [fst Vector2.add Vector2.x Vector2.y PlayerMovementProcessor.vector];
      lia.
  - destruct (Snake.cellIsInsidePlayer s' (Snake.candidate s')) eqn:E; [|done].
    apply cellIsInsidePlayer_spec in E as (i & Hi & Hc').
    rewrite Ht in Hc'. apply lookup_replicate in Hc' as [Hc' _].
    unfold Snake.candidate in Hc'. rewrite Hhd in Hc'.
    by apply add_vector_ne in Hc'.
Qed.

(** X8. Growth takes no cell: the new segment sits on the former tail's
    cell, so the chain holds exactly the cells it held, every old
    segment keeps its cell, the chain stays well formed, and the board's
    unoccupied cells are the same before and after. *)
Theorem growth_adds_no_cell (g : GameController.t) :
  let p := GameController.player g in
  Snake.wf p →
  Snake.wf (Snake.growSegment p) ∧
  take (length (Snake.targets p)) (Snake.targets (Snake.growSegment p))
    = Snake.targets p ∧
  (∀ c, c ∈ Snake.targets (Snake.growSegment p) ↔ c ∈ Snake.targets p) ∧
  GameController.unoccupiedCells
    (GameController.setPlayer (Snake.growSegment p) g)
  = GameController.unoccupiedCells g.
Proof.
  cbv zeta. intros Hwf.
  destruct (wf_inv _ Hwf) as (rest & sg & Hids & _).
  assert (∃ t, list.last (Snake.snakeSegments (GameController.player g)) = Some t)
    as [t Hlast].
  { rewrite Hids.
    destruct (list.last (Snake.snakeHeadSegment (GameController.player g) :: rest))
      eqn:E; [eauto|]. by apply last_None in E. }
  rewrite (targets_growSegment _ t Hwf Hlast).
  split_and!.
  - by apply wf_growSegment.
  - by rewrite take_app_length.
  - intros c. rewrite elem_of_app, list_elem_of_singleton. split; [|tauto].
    intros [?| ->]; [done|].
    apply list.last_Some_elem_of. by apply last_targets.
  - by apply growth_keeps_unoccupied.
Qed.

End Separation.


(* ===================================================================== *)
(** ** The controller over whole histories *)

Section Histories.

Implicit Types (g : GameController.t).

Lemma spawnPrey_fields rnd g :
  let g' := GameController.spawnPrey rnd g in
  GameController.player g' = GameController.player g ∧
  GameController.board g' = GameController.board g ∧
  GameController.score g' = GameController.score g ∧
  GameController.gameState g' = GameController.gameState g ∧
  GameController.gameIntervalActive g' = GameController.gameIntervalActive g.
Proof.
  cbv zeta. unfold GameController.spawnPrey.
  by destruct (FoodDispenser.spawnNewPrey _ _ _).
Qed.

Lemma sound_resetGame rnd g :
  Snake.wf (GameController.player g) →
  (GameController.gameIntervalActive g = true ↔
   GameController.gameState g = Playing) →
  GameController.sound (GameController.resetGame rnd g).
Proof.
  intros Hwf Ht. unfold GameController.sound, GameController.resetGame.
  destruct (spawnPrey_fields rnd
              (GameController.mk
                 (Snake.resetForStart (GameController.board g) (GameController.player g))
                 (GameController.board g)
                 (FoodDispenser.reset (GameController.preyDispenser g)) 0
                 (GameController.gameState g) (GameController.gameIntervalActive g)))
    as (-> & _ & -> & -> & ->).
  simpl.
  destruct (wf_inv _ Hwf) as (rest & sg & _ & Hsg & Hc & Hn & _).
  destruct (resetForStart_spec (GameController.board g) _ sg Hsg Hc Hn)
    as (Hwf' & Hlen & _).
  split_and!; rewrite ?Hlen; done.
Qed.

Lemma sound_new rnd : GameController.sound (GameController.new rnd).
Proof.
  unfold GameController.new. apply sound_resetGame; simpl.
  - apply wf_new.
  - done.
Qed.

Lemma sound_onPreyEaten rnd g : GameController.sound g → GameController.sound (GameController.onPreyEaten rnd g).
Proof.
  intros (Hwf & Hlen & Ht & Hs). unfold GameController.onPreyEaten.
  destruct (decide _).
  - unfold GameController.sound.
    destruct (spawnPrey_fields rnd
                (GameController.mk (GameController.player g) (GameController.board g)
                   (GameController.preyDispenser g) (GameController.score g + 1)
                   (GameController.gameState g) (GameController.gameIntervalActive g)))
      as (-> & _ & -> & -> & ->).
    simpl. split_and!; try done. lia.
  - unfold GameController.sound. simpl. split_and!; try done. lia.
Qed.

Lemma sound_perform g a : GameController.sound g → GameController.sound (GameController.perform g a).
Proof.
  intros Hs. pose proof Hs as (Hwf & Hlen & Ht & Hsc).
  destruct a as [rnd [k| |]|timeDelta|rnd]; simpl.
  - unfold GameController.onKeyDown.
    destruct (GameController.gameState g) eqn:E.
    + destruct (GameController.isArrowKey k); [|done].
      unfold GameController.sound. simpl. by split_and!.
    + unfold GameController.sound. simpl. by rewrite E.
    + destruct k; try done. apply sound_resetGame; simpl; [done|].
      rewrite Ht. by split.
    + destruct k; try done. apply sound_resetGame; simpl; [done|].
      rewrite Ht. by split.
  - destruct (GameController.gameIntervalActive g) eqn:E; [|done].
    unfold GameController.doGameUpdate.
    pose proof (wf_update (GameController.board g) _ Hwf) as Hu.
    destruct (update_chain (GameController.board g) _ Hwf) as (Hids & _).
    destruct (Snake.update _ _) as [p [|]]; simpl in *;
      unfold GameController.sound; simpl; rewrite Hids, ?E; by split_and!.
  - by apply sound_onPreyEaten.
  - unfold GameController.sound. simpl. split_and!; try done. by apply wf_draw.
  - apply sound_onPreyEaten. unfold GameController.sound. simpl. split_and!; try done.
    + by apply wf_growSegment.
    + unfold Snake.growSegment. simpl. rewrite length_app. lia.
Qed.

Lemma sound_run actions : ∀ g, GameController.sound g → GameController.sound (GameController.run actions g).
Proof.
  induction actions as [|a actions IH]; intros g Hs; [done|].
  simpl. apply IH. by apply sound_perform.
Qed.


(** X10. At every point of every history the player's chain is well
    formed, has at least eleven segments, and the score is not
    negative. *)
Theorem every_history_keeps_the_snake_well_formed
    rnd (actions : list GameController.Action) :
  let g := GameController.run actions (GameController.new rnd) in
  Snake.wf (GameController.player g) ∧
  11 ≤ length (Snake.snakeSegments (GameController.player g)) ∧
  (0 ≤ GameController.score g)%Z.
Proof.
  by destruct (sound_run actions _ (sound_new rnd)) as (? & ? & _ & ?).
Qed.

End Histories.

(* ===================================================================== *)
(** ** The properties above on the scenarios *)

Lemma safe_tick_keeps_cells_distinct_and_on_board_witness :
  NoDup (Snake.targets Scenario.stretched) ∧
  snd (Snake.update Scenario.board9 Scenario.stretched) = false ∧
  NoDup (Snake.targets (fst (Snake.update Scenario.board9 Scenario.stretched))).
Proof.
  assert (Snake.wf Scenario.stretched) as Hwf by by_evaluation.
  assert (NoDup (Snake.targets Scenario.stretched)) as Hnd by by_evaluation.
  assert (snd (Snake.update Scenario.board9 Scenario.stretched) = false) as Hd
    by (vm_compute; reflexivity).
  split; [exact Hnd|]. split; [exact Hd|].
  refine (proj1 (safe_tick_keeps_cells_distinct_and_on_board
                   Scenario.board9 Scenario.stretched Hwf Hnd _ Hd)).
  by_evaluation.
Defined.

Lemma self_collision_tick_overlaps_witness :
  Snake.cellIsInsidePlayer Scenario.loopingBack
    (Snake.candidate Scenario.loopingBack) = true ∧
  snd (Snake.update Scenario.board9 Scenario.loopingBack) = true.
Proof.
  assert (Snake.wf Scenario.loopingBack) as Hwf by by_evaluation.
  assert (Snake.cellIsInsidePlayer Scenario.loopingBack
            (Snake.candidate Scenario.loopingBack) = true) as Hc
    by (vm_compute; reflexivity).
  split; [exact Hc|].
  exact (proj1 (self_collision_tick_overlaps Scenario.board9
                  Scenario.loopingBack Hwf Hc)).
Defined.

Lemma ticks_shift_the_chain_witness :
  Snake.targets
    (Nat.iter 3 (λ s, fst (Snake.update Scenario.board9 s)) Scenario.fresh) !! 5
  = Snake.targets Scenario.fresh !! 2.
Proof.
  assert (Snake.wf Scenario.fresh) as Hwf by by_evaluation.
  refine (proj2 (proj2 (ticks_shift_the_chain Scenario.board9 3
                          Scenario.fresh 2 Hwf _))).
  by_evaluation.
Defined.

Lemma short_snake_never_self_collides_witness :
  length (Snake.snakeSegments Scenario.headOnly) ≤ 2 ∧
  Snake.cellIsInsidePlayer Scenario.headOnly Vector2.zero = false.
Proof.
  assert (length (Snake.snakeSegments Scenario.headOnly) ≤ 2) as Hlen
    by (simpl; lia).
  split; [exact Hlen|].
  exact (proj1 (short_snake_never_self_collides Scenario.board9
                  Scenario.headOnly Hlen) Vector2.zero).
Defined.

Lemma tick_writes_only_target_cells_witness :
  Snake.wf Scenario.fresh ∧
  length (Snake.heap (fst (Snake.update Scenario.board9 Scenario.fresh)))
  = length (Snake.heap Scenario.fresh).
Proof.
  assert (Snake.wf Scenario.fresh) as Hwf by by_evaluation.
  split; [exact Hwf|].
  exact (proj1 (proj2 (tick_writes_only_target_cells Scenario.board9
                         Scenario.fresh Hwf))).
Defined.

Lemma frame_keeps_the_chain_witness :
  Snake.wf Scenario.stretched ∧
  length (Snake.heap (Snake.draw JsNumber.NaN Scenario.stretched))
  = length (Snake.heap Scenario.stretched).
Proof.
  assert (Snake.wf Scenario.stretched) as Hwf by by_evaluation.
  split; [exact Hwf|].
  exact (proj1 (proj2 (proj2 (proj2
           (frame_keeps_the_chain JsNumber.NaN Scenario.stretched Hwf))))).
Defined.

Lemma first_tick_after_reset_is_safe_witness :
  Snake.wf Scenario.stretched ∧
  (3 ≤ Board.numCellsWide Scenario.board9)%Z ∧
  snd (Snake.update Scenario.board9
         (Snake.resetForStart Scenario.board9 Scenario.stretched)) = false.
Proof.
  assert (Snake.wf Scenario.stretched) as Hwf by by_evaluation.
  assert (3 ≤ Board.numCellsWide Scenario.board9)%Z as HN
    by (vm_compute; discriminate).
  split; [exact Hwf|]. split; [exact HN|].
  exact (first_tick_after_reset_is_safe Scenario.board9 Scenario.stretched Hwf HN).
Defined.

Lemma growth_adds_no_cell_witness :
  Snake.wf (GameController.player Scenario.foodAhead) ∧
  GameController.unoccupiedCells
    (GameController.setPlayer
       (Snake.growSegment (GameController.player Scenario.foodAhead))
       Scenario.foodAhead)
  = GameController.unoccupiedCells Scenario.foodAhead.
Proof.
  assert (Snake.wf (GameController.player Scenario.foodAhead)) as Hwf
    by by_evaluation.
  split; [exact Hwf|].
  exact (proj2 (proj2 (proj2 (growth_adds_no_cell Scenario.foodAhead Hwf)))).
Defined.

(* ===================================================================== *)
(** ** Outside play *)


